(** * lib/data/json.js: submission XML to OData rows

    A shallow embedding of [submissionToOData] and of the helpers it is built
    from ([getBranchState], [hashId], [navigationLink]), with the traversal
    state of the closure made explicit and the output objects kept in a store,
    since the rows are shared between the data stack, the arrays of their
    parents and the result. *)

From stdpp Require Import gmap strings list fin_maps pretty.
From Stdlib Require Import ZArith Lia Ascii.

#[local] Set Warnings "-register-all".
#[local] Open Scope Z_scope.

(** ** Host language: strings *)

Module Js.

(** [Array.prototype.join] on an array of strings. *)
Definition join (sep : string) (xs : list string) : string := String.concat sep xs.

(** [String.prototype.startsWith]. *)
Definition startsWith (s t : string) : bool := String.prefix t s.

(** White space as [\s] and [StrWhiteSpaceChar] see it, on the ASCII range. *)
Definition isSpace (c : ascii) : bool := Ascii.is_space c.

Fixpoint trimStart (s : string) : string :=
  match s with
  | String c r => if isSpace c then trimStart r else s
  | EmptyString => EmptyString
  end.

(** [s.split(/\s+/g)]: the pieces between the maximal runs of white space;
    a run at either end of the text leaves an empty piece there. [inrun] says
    that the previous character was white space, [cur] is the piece being
    read, reversed. *)
Fixpoint splitGo (inrun : bool) (cur : string) (s : string) : list string :=
  match s with
  | EmptyString => [String.rev cur]
  | String c r =>
      if isSpace c
      then (if inrun then splitGo true cur r
            else String.rev cur :: splitGo true EmptyString r)
      else splitGo false (String c cur) r
  end.

Definition splitSpaces (s : string) : list string := splitGo false EmptyString s.

(** ** Host language: numbers

    A Number is kept as the exact decimal it denotes, [m * 10 ^ e] with [m]
    not a multiple of ten (zero is [Num 0 0]); the rounding of the host to
    binary doubles and the sign of zero are left out. *)

Inductive number :=
| NaN
| Infinity (negative : bool)
| Num (m e : Z).

Definition isNaN (x : number) : bool :=
  match x with NaN => true | _ => false end.

Fixpoint normalize (fuel : nat) (m e : Z) : number :=
  match fuel with
  | O => Num m e
  | S k =>
      if m =? 0 then Num 0 0
      else if m mod 10 =? 0 then normalize k (m / 10) (e + 1)
      else Num m e
  end.

Definition mkNum (m e : Z) : number :=
  normalize (S (Z.to_nat (Z.log2 (Z.abs m)))) m e.

Definition digitOf (radix : Z) (c : ascii) : option Z :=
  let n := Z.of_nat (nat_of_ascii c) in
  let d := if (48 <=? n) && (n <=? 57) then Some (n - 48)
           else if (97 <=? n) && (n <=? 102) then Some (n - 87)
           else if (65 <=? n) && (n <=? 70) then Some (n - 55)
           else None in
  match d with
  | Some v => if v <? radix then Some v else None
  | None => None
  end.

(** The longest prefix of digits of [s] in the given radix, as their value
    (on top of [acc]) and their count, with what follows them. *)
Fixpoint digits (radix : Z) (acc : Z) (count : nat) (s : string) : Z * nat * string :=
  match s with
  | String c r =>
      match digitOf radix c with
      | Some d => digits radix (acc * radix + d) (S count) r
      | None => (acc, count, s)
      end
  | EmptyString => (acc, count, s)
  end.

Definition signOf (s : string) : bool * string :=
  match s with
  | String "-" r => (true, r)
  | String "+" r => (false, r)
  | _ => (false, s)
  end.

Definition applySign (negative : bool) (v : Z) : Z := if negative then - v else v.

(** [parseInt(text)] with no radix argument. *)
Definition parseInt (text : string) : number :=
  let '(negative, s) := signOf (trimStart text) in
  let '(radix, s) :=
    match s with
    | String "0" (String "x" r) | String "0" (String "X" r) => (16, r)
    | _ => (10, s)
    end in
  let '(v, count, _) := digits radix 0 0 s in
  match count with
  | O => NaN
  | _ => mkNum (applySign negative v) 0
  end.

(** The exponent part of a decimal literal; it counts only when it has a digit. *)
Definition exponentOf (s : string) : Z :=
  match s with
  | String "e" r | String "E" r =>
      let '(negative, r) := signOf r in
      let '(v, count, _) := digits 10 0 0 r in
      match count with O => 0 | _ => applySign negative v end
  | _ => 0
  end.

(** [parseFloat(text)]: the longest prefix that is a decimal literal. *)
Definition parseFloat (text : string) : number :=
  let '(negative, s) := signOf (trimStart text) in
  if startsWith s "Infinity" then Infinity negative
  else
    let '(ip, icount, s) := digits 10 0 0 s in
    let '(v, fcount, s) :=
      match s with
      | String "." r => digits 10 ip 0 r
      | _ => (ip, O, s)
      end in
    match icount, fcount with
    | O, O => NaN
    | _, _ => mkNum (applySign negative v) (exponentOf s - Z.of_nat fcount)
    end.

Definition zeros (n : Z) : string :=
  String.string_of_list_ascii (replicate (Z.to_nat n) "0"%char).

Definition takeS (n : Z) (s : string) : string := String.substring 0 (Z.to_nat n) s.
Definition dropS (n : Z) (s : string) : string :=
  String.substring (Z.to_nat n) (String.length s - Z.to_nat n) s.

(** [Number.prototype.toString], as template literals and [join] apply it. *)
Definition numberToString (x : number) : string :=
  match x with
  | NaN => "NaN"
  | Infinity negative => if negative then "-Infinity" else "Infinity"
  | Num m e =>
      if m =? 0 then "0"
      else
        let s := pretty (Z.abs m) in
        let k := Z.of_nat (String.length s) in
        let n := k + e in
        let body :=
          if (k <=? n) && (n <=? 21) then s +:+ zeros (n - k)
          else if (0 <? n) && (n <=? 21) then takeS n s +:+ "." +:+ dropS n s
          else if (-6 <? n) && (n <=? 0) then "0." +:+ zeros (- n) +:+ s
          else
            let ex := (if n - 1 <? 0 then "-" else "+") +:+ pretty (Z.abs (n - 1)) in
            if k =? 1 then s +:+ "e" +:+ ex
            else takeS 1 s +:+ "." +:+ dropS 1 s +:+ "e" +:+ ex in
        if m <? 0 then "-" +:+ body else body
  end.

End Js.

(** ** Data model *)

(** [field.type]: the types the walker tells apart by name, and [Other] for
    every other type string and for a field without one (the root). *)
Inductive ftype := Structure | Repeat | Int | Decimal | GeoPoint | Other.

#[global] Instance ftype_eq_dec : EqDecision ftype.
Proof. solve_decision. Defined.

(** A schema field, [{ name, type, children }]. [children] is the lookup
    object of the nested fields; a field that has none has the empty one. *)
Inductive field := Field {
  name : string;
  type : ftype;
  children : gmap string field
}.

(** What the stacks hold as iteration: the instance id at the bottom, [''] for
    a structure, the index of a repeat instance, [null] next to a null field,
    and [undefined] where an array is read past its end. *)
Inductive iteration :=
| IUndefined
| INull
| IStr (s : string)
| INum (n : nat).

(** [`${iteration}`] *)
Definition iterationToString (i : iteration) : string :=
  match i with
  | IUndefined => "undefined"
  | INull => "null"
  | IStr s => s
  | INum n => pretty n
  end.

(** Modelled from the spec: [isBlank] is imported from lib/util/util, which is
    not part of these sources; section 4.3 calls a step blank when it has no
    live iteration value, which is [null], [undefined] or the empty string
    that structures push. *)
Definition isBlank (i : iteration) : bool :=
  match i with
  | IUndefined | INull | IStr EmptyString => true
  | _ => false
  end.

(** Output objects live in a store and are named by their index in it. *)
Abbreviation addr := nat.

Inductive value :=
| VStr (s : string)
| VNum (x : Js.number)
| VRows (bags : list addr)
| VPoint (coordinates : list Js.number).

(** An output object: its own properties. *)
Abbreviation row := (gmap string value).

Inductive event :=
| OpenTag (fullname : string)
| TextNode (text : string)
| CloseTag (name : string).

(** A submission; [xml] is the document as the callbacks the scanner makes for
    it when it is written to the parser, in document order. *)
Record submission := Submission {
  instanceId : string;
  xml : list event
}.

(** [options]; [wkt] is [None] when the caller gives none, as in the default
    [{}]. *)
Record options := Options { wkt : option bool }.

(** The variables of the closure of [submissionToOData]. *)
Record state := State {
  result : list addr;
  fieldStack : list (option field);
  dataStack : list (option addr);
  iterationStack : list iteration;
  nsStack : list (option string);
  droppedWrapper : bool;
  heap : list row
}.

(** [dataPtr[key]] and [dataPtr[key] = v] *)
Definition getProp (h : list row) (a : addr) (key : string) : option value :=
  h !! a ≫= λ r : row, r !! key.

Definition setProp (h : list row) (a : addr) (key : string) (v : value) : list row :=
  alter (λ r : row, <[key := v]> r) a h.

(** ** The helpers *)

Definition Outside : Z := -1.
Definition At : Z := 0.
Definition Inside : Z := 1.

(** [fieldStack.map((field) => field.name)]; reading the name of a null entry
    throws, which is [None]. *)
Definition fieldNames (fieldStack : list (option field)) : option (list string) :=
  mapM (fmap name) fieldStack.

Definition getBranchState (fieldStack : list (option field)) (table : string) : option Z :=
  names ← fieldNames fieldStack;
  let impliedTableName := Js.join "." names in
  Some (if decide (impliedTableName = table) then 0
        else if Js.startsWith impliedTableName table then 1
        else -1).

Definition ptr {A} (stack : list A) : option A := last stack.

(** [pushPtr]; the top of an empty stack is [undefined], given as [undef]. *)
Definition pushPtr {A} (undef : A) (stack : list A) : list A :=
  stack ++ [default undef (ptr stack)].

(** [stack.pop()] *)
Definition pop {A} (stack : list A) : list A := removelast stack.

Definition contextKey (ctx : option field * iteration) : option string :=
  f ← ctx.1; Some (name f +:+ "#" +:+ iterationToString ctx.2).

(** The text that [hashId] digests. *)
Definition hashInput (stack : list (option field * iteration)) : option string :=
  Js.join "%%" <$> mapM contextKey stack.

Section Walker.

(** [shasum] of lib/util/crypto and [stripNamespacesFromPath] of lib/util/xml
    are not part of these sources; the walker is read for any two such
    functions. *)
Variable shasum : string → string.
Variable stripNamespacesFromPath : string → string.

Definition hashId (stack : list (option field * iteration)) : option string :=
  shasum <$> hashInput stack.

(** The loop of [navigationLink] from index [i] on, with [contextStack]
    holding the entries before [i]. *)
Fixpoint navigationLinkFrom (contextStack : list (option field * iteration))
    (i : nat) (fields : list (option field)) (iterationStack : list iteration)
    : option (list string) :=
  match fields with
  | [] => Some []
  | fieldI :: rest =>
      let iterationI := default IUndefined (iterationStack !! i) in
      let contextStack := contextStack ++ [(fieldI, iterationI)] in
      f ← fieldI;
      step ← (if negb (isBlank iterationI)
              then key ← (if decide (length contextStack = 1%nat)
                           then Some (iterationToString iterationI)
                           else hashId contextStack);
                   Some (name f +:+ "('" +:+ key +:+ "')")
              else Some (name f));
      steps ← navigationLinkFrom contextStack (S i) rest iterationStack;
      Some (step :: steps)
  end.

Definition navigationLink (fieldStack : list (option field))
    (iterationStack : list iteration) : option string :=
  Js.join "/" <$> navigationLinkFrom [] 0 fieldStack iterationStack.

(** The loop that looks for the parent of a new row, on the context stack
    with its top first: entries are dropped until a repeat is on top. *)
Fixpoint popToRepeat (contextStack : list (option field * iteration))
    : option (list (option field * iteration)) :=
  match contextStack with
  | [] => Some []
  | top :: below =>
      f ← top.1;
      if decide (type f = Repeat) then Some contextStack else popToRepeat below
  end.

(** [do contextStack.pop(); while (length > 0 && ptr(contextStack)[0].type !== 'repeat')] *)
Definition parentContext (contextStack : list (option field * iteration))
    : option (list (option field * iteration)) :=
  reverse <$> popToRepeat (tail (reverse contextStack)).

(** [`__${contextStack.map((ctx) => ctx[0].name).join('-')}-id`] *)
Definition parentKey (contextStack : list (option field * iteration)) : option string :=
  names ← fieldNames contextStack.*1;
  Some ("__" +:+ Js.join "-" names +:+ "-id").

(** [(nsPtr == null) ? name : `${nsPtr}__${name}`] *)
Definition nsTarget (nsPtr : option string) (name' : string) : string :=
  match nsPtr with
  | None => name'
  | Some ns => ns +:+ "__" +:+ name'
  end.

Section Conversion.

Variable table : string.
Variable sub : submission.
Variable opts : options.

Definition push (s : state) (f : option field) (d : option addr) (i : iteration)
    (ns : option string) : state :=
  State (result s) (fieldStack s ++ [f]) (dataStack s ++ [d])
        (iterationStack s ++ [i]) (nsStack s ++ [ns]) (droppedWrapper s) (heap s).

Definition withHeap (s : state) (h : list row) : state :=
  State (result s) (fieldStack s) (dataStack s) (iterationStack s) (nsStack s)
        (droppedWrapper s) h.

Definition withResult (s : state) (r : list addr) : state :=
  State r (fieldStack s) (dataStack s) (iterationStack s) (nsStack s)
        (droppedWrapper s) (heap s).

(** The property that a repeat instance at the table takes besides its
    [__id]: the reference to its parent. *)
Definition parentReference (contextStack : list (option field * iteration))
    : option (string * value) :=
  parent ← parentContext contextStack;
  if decide (length parent = 0%nat)
  then Some ("__Submissions-id", VStr (instanceId sub))
  else key ← parentKey parent; id ← hashId parent; Some (key, VStr id).

(** The repeat branch of [onopentag], entered with the field already pushed
    ([fieldStack'] is the stack with it). *)
Definition openRepeat (s : state) (name' : string) (f : field) : option state :=
  let fieldStack' := fieldStack s ++ [Some f] in
  dataPtr ← mjoin (ptr (dataStack s));
  let nsPtr := mjoin (ptr (nsStack s)) in
  let target := nsTarget nsPtr name' in
  link ← navigationLink fieldStack' (iterationStack s);
  let h1 := setProp (heap s) dataPtr (target +:+ "@odata.navigationLink") (VStr link) in
  branchState ← getBranchState fieldStack' table;
  if decide (branchState < 1) then
    (* an array to push into; anything else under that key has no [push] *)
    bags ← match getProp h1 dataPtr name' with
           | None => Some []
           | Some (VRows bags) => Some bags
           | Some _ => None
           end;
    let iterationStack' := iterationStack s ++ [INum (length bags)] in
    let contextStack := zip fieldStack' iterationStack' in
    id ← hashId contextStack;
    let bag : addr := length h1 in
    let h2 := setProp h1 dataPtr name' (VRows (bags ++ [bag])) ++ [ {[ "__id" := VStr id ]} ] in
    let s' := State (result s) fieldStack' (dataStack s ++ [Some bag]) iterationStack'
                    (nsStack s ++ [None]) (droppedWrapper s) h2 in
    if decide (branchState = 0) then
      ref ← parentReference contextStack;
      Some (withHeap (withResult s' (result s ++ [bag])) (setProp h2 bag ref.1 ref.2))
    else Some s'
  else
    Some (State (result s) (pop fieldStack' ++ [None]) (dataStack s ++ [None])
                (iterationStack s ++ [INull]) (nsStack s ++ [None]) (droppedWrapper s) h1).

Definition onopentag (s : state) (fullname : string) : option state :=
  if negb (droppedWrapper s) then
    Some (State (result s) (fieldStack s) (dataStack s) (iterationStack s) (nsStack s)
                true (heap s))
  else
    let name' := stripNamespacesFromPath fullname in
    match mjoin (ptr (fieldStack s)) ≫= λ fieldPtr, children fieldPtr !! name' with
    | Some f =>
        match type f with
        | Structure =>
            let nsPtr := mjoin (ptr (nsStack s)) in
            Some (State (result s) (fieldStack s ++ [Some f]) (pushPtr None (dataStack s))
                        (iterationStack s ++ [IStr ""])
                        (nsStack s ++ [Some (nsTarget nsPtr (name f))])
                        (droppedWrapper s) (heap s))
        | Repeat => openRepeat s name' f
        | _ =>
            Some (State (result s) (fieldStack s ++ [Some f]) (pushPtr None (dataStack s))
                        (pushPtr IUndefined (iterationStack s)) (pushPtr None (nsStack s))
                        (droppedWrapper s) (heap s))
        end
    | None => Some (push s None None INull None)
    end.

(** The value that a text event writes for a scalar field, if it writes one. *)
Definition geopoint (text : string) : option value :=
  let parsed := Js.parseFloat <$> Js.splitSpaces text in
  lat ← parsed !! 0%nat;
  lon ← parsed !! 1%nat;
  if Js.isNaN lat || Js.isNaN lon then None
  else
    let coordinates :=
      match parsed !! 2%nat with
      | Some altitude => if Js.isNaN altitude then [lon; lat] else [lon; lat; altitude]
      | None => [lon; lat]
      end in
    Some (if decide (wkt opts = Some true)
          then VStr ("POINT (" +:+ Js.join " " (Js.numberToString <$> coordinates) +:+ ")")
          else VPoint coordinates).

Definition coerce (t : ftype) (text : string) : option value :=
  match t with
  | Structure | Repeat => None
  | Int => Some (VNum (Js.parseInt text))
  | Decimal => Some (VNum (Js.parseFloat text))
  | GeoPoint => geopoint text
  | Other => Some (VStr text)
  end.

Definition ontext (s : state) (text : string) : option state :=
  match mjoin (ptr (fieldStack s)) with
  | Some fieldPtr =>
      branchState ← getBranchState (fieldStack s) table;
      if decide (branchState = 1) then
        let dataPtr := mjoin (ptr (dataStack s)) in
        let nsPtr := mjoin (ptr (nsStack s)) in
        let target := nsTarget nsPtr (name fieldPtr) in
        match coerce (type fieldPtr) text with
        | Some v => a ← dataPtr; Some (withHeap s (setProp (heap s) a target v))
        | None => Some s
        end
      else Some s
  | None => Some s
  end.

(** [onclosetag] pops the four stacks; the state it leaves is handed to
    [resolve] when the field stack is then empty. *)
Definition onclosetag (s : state) (name' : string) : state :=
  State (result s) (pop (fieldStack s)) (pop (dataStack s)) (pop (iterationStack s))
        (pop (nsStack s)) (droppedWrapper s) (heap s).

(** The promise as [parser.write] leaves it: still pending with the closure in
    state [s], resolved with the result of state [s] (the parser is reset and
    takes no more events), or rejected because a callback threw. *)
Inductive status :=
| Pending (s : state)
| Resolved (s : state)
| Rejected.

Definition handle (st : status) (e : event) : status :=
  match st with
  | Pending s =>
      match e with
      | OpenTag fullname =>
          match onopentag s fullname with Some s' => Pending s' | None => Rejected end
      | TextNode text =>
          match ontext s text with Some s' => Pending s' | None => Rejected end
      | CloseTag name' =>
          let s' := onclosetag s name' in
          if decide (length (fieldStack s') = 0%nat) then Resolved s' else Pending s'
      end
  | _ => st
  end.

Definition write (st : status) (events : list event) : status :=
  foldl handle st events.

End Conversion.

(** The state in which the parser is started. *)
Definition initial (fields : gmap string field) (table : string) (sub : submission) : state :=
  State (if decide (table = "Submissions") then [0%nat] else [])
        [Some (Field "Submissions" Other fields)]
        [Some 0%nat]
        [IStr (instanceId sub)]
        [None]
        false
        [ {[ "__id" := VStr (instanceId sub) ]} ].

Definition submissionToOData (fields : gmap string field) (table : string)
    (sub : submission) (opts : options) : status :=
  write table sub opts (Pending (initial fields table sub)) (xml sub).

(** The rows that a resolved conversion hands to its caller. *)
Definition rowsOf (s : state) : list row := omap (λ a, heap s !! a) (result s).

End Walker.

(** * The vocabulary of the properties *)

(** ** Paths, ancestries and their digests *)

(** The path that [getBranchState] compares with the table. *)
Definition impliedTableName (fs : list field) : string := Js.join "." (name <$> fs).

(** An ancestry without null entries, as the stacks hold it. *)
Definition lift (anc : list (field * iteration)) : list (option field * iteration) :=
  prod_map Some id <$> anc.

(** Section 4.2: ["<fieldName>#<iterationValue>"] for each pair, joined by the
    separator; the content hash of an ancestry is the digest of this text. *)
Definition digestInput (anc : list (field * iteration)) : string :=
  Js.join "%%" ((λ p, name p.1 +:+ "#" +:+ iterationToString p.2) <$> anc).

(** The (field, iteration) pairs on the stacks, bottom first. *)
Definition ancestry (s : state) : list (field * iteration) :=
  zip (omap id (fieldStack s)) (iterationStack s).



(** What follows an entry in the joined text. *)
Definition joinTail (sep : string) (xs : list string) : string :=
  match xs with
  | [] => ""
  | _ => sep +:+ Js.join sep xs
  end.

(** ** Navigation links *)

(** Section 4.3, step [i] of the ancestry [anc]: the bare field name when the
    step has no live iteration; otherwise [name('<key>')], the key being the
    literal iteration value for the first step and the content hash of the
    ancestry truncated to the step for the deeper ones. *)
Definition linkStep (shasum : string → string) (anc : list (field * iteration))
    (i : nat) (p : field * iteration) : string :=
  if isBlank p.2 then name p.1
  else name p.1 +:+ "('" +:+
       (if decide (i = 0%nat) then iterationToString p.2
        else shasum (digestInput (take (S i) anc))) +:+ "')".

Definition linkPath (shasum : string → string) (anc : list (field * iteration)) : string :=
  Js.join "/" (imap (linkStep shasum anc) anc).

(** The context that the loop of [navigationLink] pairs up; an iteration
    stack shorter than the field stack is read as [undefined] past its end. *)
Definition contextFrom (k : nat) (fs : list field) (its : list iteration)
    : list (field * iteration) :=
  imap (λ j f, (f, default IUndefined (its !! (k + j)%nat))) fs.

(** ** Text events *)


(** ** The stacks *)



(** The entry at the bottom of the field stack. *)
Definition rootField (fields : gmap string field) : field := Field "Submissions" Other fields.

(** The shape of the stacks while a document is read: the root at the bottom
    of the field stack, null fields only on top of the others, a row of the
    store next to every field and null next to every null field. *)
Definition consistent (fields : gmap string field) (s : state) : Prop :=
  ∃ (fs : list field) (ds : list addr) (k : nat),
    fieldStack s = (Some <$> rootField fields :: fs) ++ replicate k None
    ∧ dataStack s = (Some <$> ds) ++ replicate k None
    ∧ length ds = S (length fs)
    ∧ Forall (λ a, (a < length (heap s))%nat) ds
    ∧ length (iterationStack s) = length (fieldStack s)
    ∧ length (nsStack s) = length (fieldStack s).

(** The states in which the callbacks run while the document is read. *)
Definition reached (shasum stripNamespacesFromPath : string → string) (table : string)
    (sub : submission) (opts : options) (fields : gmap string field)
    (events : list event) (s : state) : Prop :=
  write shasum stripNamespacesFromPath table sub opts
    (Pending (initial fields table sub)) events = Pending s.

(** ** New rows *)

(** The ancestors of a new row, cut after the nearest repeat among them: what
    is left of them when entries are dropped from the top until a repeat is
    on top; empty when there is no repeat. *)
Fixpoint skipToRepeat (top_first : list (field * iteration)) : list (field * iteration) :=
  match top_first with
  | [] => []
  | p :: below => if decide (type p.1 = Repeat) then top_first else skipToRepeat below
  end.

Definition cutAtRepeat (ancestors : list (field * iteration)) : list (field * iteration) :=
  reverse (skipToRepeat (reverse ancestors)).

(** The key and the value of the parent reference, by the ancestors of the
    new row: named after the path down to the nearest repeat among them and
    valued with the content hash of that path, or, with no repeat among them,
    named after the root and valued with the instance id. *)
Definition parentRef (shasum : string → string) (sub : submission)
    (ancestors : list (field * iteration)) : string * value :=
  match cutAtRepeat ancestors with
  | [] => ("__Submissions-id", VStr (instanceId sub))
  | parent => ("__" +:+ Js.join "-" (name <$> parent.*1) +:+ "-id",
               VStr (shasum (digestInput parent)))
  end.

(** The store once the navigation link is written on the row at [a]. *)
Definition linked (shasum : string → string) (s : state) (fs : list field) (a : addr)
    (name' : string) (f : field) : list row :=
  setProp (heap s) a
    (nsTarget (mjoin (ptr (nsStack s))) name' +:+ "@odata.navigationLink")
    (VStr (linkPath shasum (contextFrom 0 (fs ++ [f]) (iterationStack s)))).

(** The frame of a repeat that is not expanded. *)
Definition skipped (shasum : string → string) (s : state) (fs : list field) (a : addr)
    (name' : string) (f : field) : state :=
  State (result s) (fieldStack s ++ [None]) (dataStack s ++ [None])
        (iterationStack s ++ [INull]) (nsStack s ++ [None]) (droppedWrapper s)
        (linked shasum s fs a name' f).

(** The row of a new instance, the [position]-th of its name on its parent:
    its id is the content hash of its ancestry, and at the table it holds the
    reference to its parent. *)
Definition newId (shasum : string → string) (s : state) (fs : list field) (f : field)
    (position : nat) : string :=
  shasum (digestInput (zip fs (iterationStack s) ++ [(f, INum position)])).

Definition newRow (shasum : string → string) (sub : submission) (s : state)
    (fs : list field) (f : field) (position : nat) (atTable : bool) : row :=
  if atTable
  then <[ (parentRef shasum sub (zip fs (iterationStack s))).1 :=
          (parentRef shasum sub (zip fs (iterationStack s))).2 ]>
       {[ "__id" := VStr (newId shasum s fs f position) ]}
  else {[ "__id" := VStr (newId shasum s fs f position) ]}.

(** The state after the instance is expanded, [bags] being the instances
    already in the array. *)
Definition expanded (shasum : string → string) (sub : submission) (s : state)
    (fs : list field) (a : addr) (name' : string) (f : field) (bags : list addr)
    (atTable : bool) : state :=
  State (if atTable then result s ++ [length (heap s)] else result s)
        (fieldStack s ++ [Some f]) (dataStack s ++ [Some (length (heap s))])
        (iterationStack s ++ [INum (length bags)]) (nsStack s ++ [None])
        (droppedWrapper s)
        (setProp (linked shasum s fs a name' f) a name' (VRows (bags ++ [length (heap s)]))
         ++ [newRow shasum sub s fs f (length bags) atTable]).


(** ** The end of a conversion *)


(** ** Elements and their content *)

(** The number of elements that are open after [events], [depth] of them being
    open before; [None] when a close tag comes with none open. *)
Fixpoint nesting (depth : nat) (events : list event) : option nat :=
  match events with
  | [] => Some depth
  | OpenTag _ :: rest => nesting (S depth) rest
  | TextNode _ :: rest => nesting depth rest
  | CloseTag _ :: rest =>
      match depth with
      | O => None
      | S below => nesting below rest
      end
  end.

(** Content in which every element that is opened is closed. *)
Definition balanced (events : list event) : Prop := nesting 0 events = Some 0%nat.

(** The state with [depth] null frames pushed on its stacks. *)
Definition pushNulls (depth : nat) (s : state) : state :=
  State (result s) (fieldStack s ++ replicate depth None)
        (dataStack s ++ replicate depth None)
        (iterationStack s ++ replicate depth INull)
        (nsStack s ++ replicate depth None) (droppedWrapper s) (heap s).

(** The stacks of [t] are those of [s] with [depth] more entries on each. *)
Definition above (s : state) (depth : nat) (t : state) : Prop :=
  (∃ fs, fieldStack t = fieldStack s ++ fs ∧ length fs = depth)
  ∧ (∃ ds, dataStack t = dataStack s ++ ds ∧ length ds = depth)
  ∧ (∃ its, iterationStack t = iterationStack s ++ its ∧ length its = depth)
  ∧ (∃ nss, nsStack t = nsStack s ++ nss ∧ length nss = depth).

(** ** Groups and the keys of their fields *)

(** The namespace that is pushed with a field, [nsPtr] being the one on top:
    a group adds its name, a repeat and a null field start with none, every
    other field keeps the one it finds. *)
Definition nsNext (nsPtr : option string) (f : option field) : option string :=
  match f with
  | Some f =>
      match type f with
      | Structure => Some (nsTarget nsPtr (name f))
      | Repeat => None
      | _ => nsPtr
      end
  | None => None
  end.

(** The namespace stack that belongs to a field stack. *)
Inductive nsAlong : list (option field) → list (option string) → Prop :=
| nsAlong_nil : nsAlong [] []
| nsAlong_snoc fieldStack nsStack f :
    nsAlong fieldStack nsStack →
    nsAlong (fieldStack ++ [f]) (nsStack ++ [nsNext (mjoin (ptr nsStack)) f]).

(** The names of the groups around what is below the path [fs]: those of the
    structures that come after the last repeat of the path, [acc] being the
    names gathered before the path. *)
Fixpoint groupsFrom (acc : list string) (fs : list field) : list string :=
  match fs with
  | [] => acc
  | f :: rest =>
      groupsFrom (match type f with
                  | Structure => acc ++ [name f]
                  | Repeat => []
                  | _ => acc
                  end) rest
  end.

Definition groups (fs : list field) : list string := groupsFrom [] fs.

(** The namespace made of group names. *)
Definition nsOf (names : list string) : option string :=
  match names with
  | [] => None
  | _ => Some (Js.join "__" names)
  end.

(** ** Rows that are handed to the caller *)

(** A row that holds no array of rows. *)
Definition flat (h : list row) (a : addr) : Prop :=
  ∀ key bags, getProp h a key ≠ Some (VRows bags).

(** Every row of the data stack that is in the result stands next to a path
    that has the table as a prefix. *)
Definition underTable (table : string) (fs : list field) (ds : list addr)
    (res : list addr) : Prop :=
  ∀ i a, ds !! i = Some a → a ∈ res →
         Js.startsWith (impliedTableName (take (S i) fs)) table = true.

(** The rows of the result are rows of the store, the walker is at the table
    or inside it wherever one of them is on the data stack, and none of them
    holds an array. *)
Definition placed (table : string) (s : state) : Prop :=
  Forall (λ a, (a < length (heap s))%nat) (result s)
  ∧ underTable table (omap id (fieldStack s)) (omap id (dataStack s)) (result s)
  ∧ ∀ a, a ∈ result s → flat (heap s) a.

(** ** Paths of the schema *)


(** ** Callbacks that do not read their argument *)

(** The event with the name of a close tag left out. *)
Definition eraseCloseName (e : event) : event :=
  match e with
  | CloseTag _ => CloseTag ""
  | _ => e
  end.

(** ** Groups and the row of their fields *)

(** The data stack that belongs to a field stack: a field that is no repeat
    stands next to the entry that is below it. *)
Inductive dataAlong : list (option field) → list (option addr) → Prop :=
| dataAlong_nil : dataAlong [] []
| dataAlong_root f d : dataAlong [f] [d]
| dataAlong_same fieldStack dataStack f :
    dataAlong fieldStack dataStack → type f ≠ Repeat →
    dataAlong (fieldStack ++ [Some f]) (pushPtr None dataStack)
| dataAlong_other fieldStack dataStack f d :
    dataAlong fieldStack dataStack → (∀ g, f = Some g → type g = Repeat) →
    dataAlong (fieldStack ++ [f]) (dataStack ++ [d]).

(** ** Worked documents *)

(** An injective stand-in for [shasum], and [stripNamespacesFromPath] on tags
    that carry no prefix, which it returns as they are. *)
Definition exampleDigest (text : string) : string := "sha:" +:+ text.
Definition unprefixed (fullname : string) : string := fullname.

Definition leaf (name' : string) (t : ftype) : field := Field name' t ∅.

(** [a] is a repeat of [b]s next to a text [n]; a [b] holds an integer [x], a
    decimal [d], a point [p] and a text [t]; [g] is a group with a decimal. *)
Definition fieldB : field :=
  Field "b" Repeat
    {[ "x" := leaf "x" Int; "d" := leaf "d" Decimal;
       "p" := leaf "p" GeoPoint; "t" := leaf "t" Other ]}.

Definition fieldA : field :=
  Field "a" Repeat {[ "b" := fieldB; "n" := leaf "n" Other ]}.

Definition exampleFields : gmap string field :=
  {[ "a" := fieldA; "g" := Field "g" Structure {[ "y" := leaf "y" Decimal ]} ]}.

Definition element (tag : string) (content : list event) : list event :=
  OpenTag tag :: content ++ [CloseTag tag].

(** [<data><a><b/></a><a><b/></a></data>] *)
Definition nestedDocument : submission :=
  Submission "uuid:1"
    (element "data" (element "a" (element "b" []) ++ element "a" (element "b" []))).

(** [<data><a><b><x>abc</x><d>n/a</d><t>hi</t></b></a></data>] *)
Definition unparsableDocument : submission :=
  Submission "uuid:2"
    (element "data" (element "a" (element "b"
       (element "x" [TextNode "abc"] ++ element "d" [TextNode "n/a"]
        ++ element "t" [TextNode "hi"])))).



(** A repeat [a] with a text field [ab] next to it, and the document
    [<data><ab>zz</ab></data>]. *)
Definition siblingFields : gmap string field :=
  {[ "a" := Field "a" Repeat ∅; "ab" := leaf "ab" Other ]}.

Definition siblingDocument : submission :=
  Submission "uuid:5" (element "data" (element "ab" [TextNode "zz"])).

(** A repeat named like the key that every row has, and the document
    [<data><__id/></data>]. *)
Definition clashFields : gmap string field := {[ "__id" := Field "__id" Repeat ∅ ]}.

Definition clashDocument : submission :=
  Submission "uuid:6" (element "data" (element "__id" [])).

(** [<data><g><y>1.5</y></g></data>] *)
Definition groupDocument : submission :=
  Submission "uuid:7" (element "data" (element "g" (element "y" [TextNode "1.5"]))).

(** The chosen keys of the rows that a conversion resolves with. *)
Definition resolvedWith (keys : list string) (st : status) : option (list (list (option value))) :=
  match st with
  | Resolved s => Some ((λ r : row, (λ key, r !! key) <$> keys) <$> rowsOf s)
  | _ => None
  end.

(** The state of a conversion that has one. *)
Definition stateOf (st : status) : state :=
  match st with
  | Pending s | Resolved s => s
  | Rejected => State [] [] [] [] [] false []
  end.

(** The conversion of a document to a table after its first [n] events. *)
Definition exampleAfter (fields : gmap string field) (table : string) (sub : submission)
    (n : nat) : status :=
  write exampleDigest unprefixed table sub (Options None)
    (Pending (initial fields table sub)) (take n (xml sub)).

(** * Properties *)

(** ** The host functions on some inputs *)

Example parseInt_12 : Js.parseInt " 12px" = Js.Num 12 0.
Proof. reflexivity. Qed.
Example parseInt_abc : Js.parseInt "abc" = Js.NaN.
Proof. reflexivity. Qed.
Example parseInt_hex : Js.parseInt "-0x1f" = Js.Num (-31) 0.
Proof. reflexivity. Qed.
Example parseFloat_1_0 : Js.parseFloat "1.0" = Js.Num 1 0.
Proof. reflexivity. Qed.
Example parseFloat_frac : Js.parseFloat "-12.50e-1xyz" = Js.Num (-125) (-2).
Proof. reflexivity. Qed.
Example parseFloat_dot : Js.parseFloat "." = Js.NaN.
Proof. reflexivity. Qed.
Example parseFloat_empty : Js.parseFloat "" = Js.NaN.
Proof. reflexivity. Qed.
Example splitSpaces_ex : Js.splitSpaces " 1.0  2.0 " = [""; "1.0"; "2.0"; ""].
Proof. reflexivity. Qed.
Example numberToString_ex :
  map Js.numberToString [Js.Num 2 0; Js.Num (-125) (-2); Js.Num 5 (-7); Js.Num 12 20; Js.Num 1 20]
  = ["2"; "-1.25"; "5e-7"; "1.2e+21"; "100000000000000000000"].
Proof. vm_compute. reflexivity. Qed.

(** ** Strings *)

Lemma string_app_cons (c : ascii) (s t : string) : String c s +:+ t = String c (s +:+ t).
Proof. done. Qed.

Lemma string_app_nil_r (s : string) : s +:+ "" = s.
Proof. induction s as [|c s IH]; [done|]. by rewrite string_app_cons, IH. Qed.

Lemma string_app_assoc (s t u : string) : (s +:+ t) +:+ u = s +:+ t +:+ u.
Proof. induction s as [|c s IH]; [done|]. by rewrite !string_app_cons, IH. Qed.

Lemma string_app_length (s t : string) :
  String.length (s +:+ t) = (String.length s + String.length t)%nat.
Proof. induction s as [|c s IH]; [done|]. rewrite string_app_cons. cbn. by rewrite IH. Qed.

(** [startsWith] is the prefix relation on strings. *)
Lemma startsWith_spec (s t : string) :
  Js.startsWith s t = true ↔ ∃ rest, s = t +:+ rest.
Proof.
  unfold Js.startsWith. revert s. induction t as [|c t IH]; intros s.
  - destruct s; cbn; split; eauto.
  - destruct s as [|d s]; cbn.
    + split; [done|]. by intros [rest ?].
    + destruct (ascii_dec c d) as [->|Hne].
      * rewrite IH. split; intros [rest Hrest]; exists rest.
        -- by rewrite Hrest.
        -- rewrite string_app_cons in Hrest. by injection Hrest.
      * split; [done|]. intros [rest Hrest]. rewrite string_app_cons in Hrest.
        injection Hrest as -> _. done.
Qed.

(** ** The branch locator *)

Lemma fieldNames_Some (fs : list field) : fieldNames (Some <$> fs) = Some (name <$> fs).
Proof.
  unfold fieldNames. apply mapM_Some. induction fs as [|f fs IH]; constructor; done.
Qed.

Lemma fieldNames_null (fieldStack : list (option field)) :
  None ∈ fieldStack → fieldNames fieldStack = None.
Proof.
  intros Hin. unfold fieldNames. destruct (mapM _ _) as [names|] eqn:Hm; [|done].
  apply mapM_Some in Hm. apply list_elem_of_lookup in Hin as [i Hi].
  destruct (Forall2_lookup_l _ _ _ _ _ Hm Hi) as (y & _ & Hy). done.
Qed.

Lemma getBranchState_Some (fs : list field) (table : string) :
  getBranchState (Some <$> fs) table
  = Some (if decide (impliedTableName fs = table) then At
          else if Js.startsWith (impliedTableName fs) table then Inside
          else Outside).
Proof. unfold getBranchState. by rewrite fieldNames_Some. Qed.

(** What the code decides, for every path and table: [At] on equality,
    [Inside] on every other path that has the table as a prefix of its text,
    [Outside] on the rest. *)
Lemma getBranchState_cases (fs : list field) (table : string) :
  (getBranchState (Some <$> fs) table = Some At ↔ impliedTableName fs = table)
  ∧ (getBranchState (Some <$> fs) table = Some Inside
     ↔ impliedTableName fs ≠ table ∧ ∃ rest, impliedTableName fs = table +:+ rest)
  ∧ (getBranchState (Some <$> fs) table = Some Outside
     ↔ ¬ ∃ rest, impliedTableName fs = table +:+ rest).
Proof.
  rewrite getBranchState_Some. unfold At, Inside, Outside.
  assert (table = table +:+ "") as Hnil by (by rewrite string_app_nil_r).
  destruct (decide (impliedTableName fs = table)) as [Heq|Hne].
  - split; [done|]. split.
    + split; [done|]. by intros [? _].
    + split; [done|]. intros Hno. destruct Hno. exists EmptyString. congruence.
  - destruct (Js.startsWith _ _) eqn:Hsw.
    + apply startsWith_spec in Hsw. split; [|split].
      * split; [done|]. intros ?. done.
      * done.
      * split; [done|]. intros Hno. by destruct Hno.
    + assert (¬ ∃ rest, impliedTableName fs = table +:+ rest) as Hno.
      { intros Hex. apply startsWith_spec in Hex. congruence. }
      split; [|split].
      * split; [done|]. intros ?. done.
      * split; [done|]. by intros [_ ?].
      * done.
Qed.

(** C1. The claim wants [Outside] for a path that has the table as a prefix
    of its text without a separator after it. For the table [Submissions.a]
    and the field [ab] next to [a], the walker stands at the path
    [Submissions.ab], neither equal to the table nor the table followed by a
    dot; [getBranchState] answers [1] there, inside the branch, and the text
    of [ab] is written as a value of that branch, here on the root row. *)
Theorem getBranchState_sibling_sharing_prefix :
  let s := stateOf (exampleAfter siblingFields "Submissions.a" siblingDocument 2) in
  fieldNames (fieldStack s) = Some ["Submissions"; "ab"]
  ∧ Js.startsWith "Submissions.ab" ("Submissions.a" +:+ ".") = false
  ∧ getBranchState (fieldStack s) "Submissions.a" = Some Inside
  ∧ getProp (heap s) 0 "ab" = None
  ∧ getProp (heap (stateOf (exampleAfter siblingFields "Submissions.a" siblingDocument 3)))
      0 "ab" = Some (VStr "zz").
Proof. by vm_compute. Qed.

(** ** Ancestries without null entries

    The helpers are called on stacks that hold no null field; on those they
    do not throw, and they compute what [digestInput] and [linkPath] say. *)

Lemma lift_zip (fs : list field) (its : list iteration) :
  zip (Some <$> fs) its = lift (zip fs its).
Proof.
  unfold lift. rewrite prod_map_zip. by rewrite list_fmap_id.
Qed.

Lemma lift_app (a b : list (field * iteration)) : lift (a ++ b) = lift a ++ lift b.
Proof. apply fmap_app. Qed.

Lemma lift_fst (anc : list (field * iteration)) : (lift anc).*1 = Some <$> anc.*1.
Proof. unfold lift. rewrite <- !list_fmap_compose. by apply list_fmap_ext. Qed.

Lemma hashInput_lift (anc : list (field * iteration)) :
  hashInput (lift anc) = Some (digestInput anc).
Proof.
  unfold hashInput, digestInput.
  assert (mapM contextKey (lift anc)
          = Some ((λ p, name p.1 +:+ "#" +:+ iterationToString p.2) <$> anc)) as ->; [|done].
  apply mapM_Some. induction anc as [|[f i] anc IH]; constructor; done.
Qed.

Lemma hashId_lift (shasum : string → string) (anc : list (field * iteration)) :
  hashId shasum (lift anc) = Some (shasum (digestInput anc)).
Proof. unfold hashId. by rewrite hashInput_lift. Qed.

(** *** The digest input tells iteration positions apart *)





Lemma join_cons (sep x : string) (xs : list string) :
  Js.join sep (x :: xs) = x +:+ joinTail sep xs.
Proof. destruct xs; cbn; [by rewrite string_app_nil_r|done]. Qed.




(** ** The navigation link builder *)

Section Links.

Variable shasum : string → string.

Lemma navigationLinkFrom_steps (its : list iteration) (todo : list field)
    (ctx all : list (field * iteration)) :
  all = ctx ++ contextFrom (length ctx) todo its →
  navigationLinkFrom shasum (lift ctx) (length ctx) (Some <$> todo) its
  = Some (imap (λ j, linkStep shasum all (length ctx + j)) (contextFrom (length ctx) todo its)).
Proof.
  revert ctx. induction todo as [|f todo IH]; intros ctx Hall; [done|].
  unfold contextFrom in *. rewrite imap_cons in *. rewrite imap_cons.
  rewrite fmap_cons. cbn [navigationLinkFrom].
  rewrite Nat.add_0_r in *.
  set (it := default IUndefined (its !! length ctx)) in *.
  assert (lift ctx ++ [(Some f, it)] = lift (ctx ++ [(f, it)])) as -> by (by rewrite lift_app).
  cbn [mbind option_bind].
  assert (imap ((λ j f0, (f0, default IUndefined (its !! (length ctx + j)%nat))) ∘ S) todo
          = imap (λ j f0, (f0, default IUndefined (its !! (length (ctx ++ [(f, it)]) + j)%nat))) todo)
    as Hshift.
  { apply imap_ext. intros j x _. cbn. rewrite length_app. cbn. do 3 f_equal. lia. }
  rewrite Hshift in *.
  specialize (IH (ctx ++ [(f, it)])).
  rewrite length_app in IH at 1. cbn [length] in IH. rewrite Nat.add_1_r in IH.
  rewrite IH; [|by rewrite <- app_assoc].
  assert ((if negb (isBlank it)
           then (if decide (length (lift (ctx ++ [(f, it)])) = 1%nat)
                 then Some (iterationToString it)
                 else hashId shasum (lift (ctx ++ [(f, it)]))) ≫=
                λ key, Some (name f +:+ "('" +:+ key +:+ "')")
           else Some (name f)) = Some (linkStep shasum all (length ctx) (f, it))) as ->.
  { unfold linkStep. cbn [fst snd]. destruct (isBlank it); cbn [negb]; [done|].
    unfold lift. rewrite length_fmap, length_app. cbn [length].
    rewrite hashId_lift.
    assert (take (S (length ctx)) all = ctx ++ [(f, it)]) as ->.
    { rewrite Hall. rewrite take_app_ge by lia.
      replace (S (length ctx) - length ctx)%nat with 1%nat by lia. done. }
    destruct ctx; cbn [length]; repeat case_decide; try lia; done. }
  cbn [mbind option_bind]. do 2 f_equal.
  apply imap_ext. intros j x _. cbn. rewrite length_app. cbn. f_equal. lia.
Qed.

Lemma navigationLink_Some (fs : list field) (its : list iteration) :
  navigationLink shasum (Some <$> fs) its = Some (linkPath shasum (contextFrom 0 fs its)).
Proof.
  pose proof (navigationLinkFrom_steps its fs [] (contextFrom 0 fs its) eq_refl) as Hsteps.
  unfold navigationLink, linkPath.
  exact (f_equal (fmap (Js.join "/")) Hsteps).
Qed.

Lemma contextFrom_fst_snd (anc : list (field * iteration)) :
  contextFrom 0 anc.*1 anc.*2 = anc.
Proof.
  unfold contextFrom. apply list_eq. intros i.
  rewrite list_lookup_imap, !list_lookup_fmap. cbn.
  destruct (anc !! i) as [[f it]|]; done.
Qed.

(** C6. For every ancestry of (field, iteration value) pairs from the root,
    [navigationLink] returns the steps joined by a slash, where a step with no
    live iteration value gives its bare field name, the first step with a live
    one gives [name('<value>')] with the value itself, and a deeper step with
    a live one gives [name('<id>')] with the content hash of the ancestry
    truncated to that step. *)
Theorem navigationLink_steps (anc : list (field * iteration)) :
  navigationLink shasum (Some <$> anc.*1) anc.*2
  = Some (Js.join "/" (imap (λ i p,
            if isBlank p.2 then name p.1
            else if decide (i = 0%nat)
                 then name p.1 +:+ "('" +:+ iterationToString p.2 +:+ "')"
                 else name p.1 +:+ "('" +:+ shasum (digestInput (take (S i) anc)) +:+ "')")
          anc)).
Proof.
  rewrite navigationLink_Some, contextFrom_fst_snd. unfold linkPath. do 2 f_equal.
  apply imap_ext. intros i p _. unfold linkStep. by repeat case_match.
Qed.

End Links.

(** ** The store *)

Lemma length_setProp (h : list row) (a : addr) (key : string) (v : value) :
  length (setProp h a key v) = length h.
Proof. apply length_alter. Qed.

Lemma getProp_setProp_eq (h : list row) (a : addr) (key : string) (v : value) :
  (a < length h)%nat → getProp (setProp h a key v) a key = Some v.
Proof.
  intros Ha. unfold getProp, setProp. rewrite list_lookup_alter_eq.
  destruct (lookup_lt_is_Some_2 h a Ha) as [r ->]. cbn. by rewrite lookup_insert_eq.
Qed.

Lemma getProp_setProp_ne (h : list row) (a b : addr) (key key' : string) (v : value) :
  a ≠ b ∨ key ≠ key' → getProp (setProp h a key v) b key' = getProp h b key'.
Proof.
  intros Hne. unfold getProp, setProp. destruct (decide (a = b)) as [<-|Hab].
  - rewrite list_lookup_alter_eq. destruct (h !! a) as [r|]; cbn; [|done].
    rewrite lookup_insert_ne; [done|]. by destruct Hne.
  - by rewrite list_lookup_alter_ne.
Qed.

Lemma getProp_app_l (h h' : list row) (a : addr) (key : string) :
  (a < length h)%nat → getProp (h ++ h') a key = getProp h a key.
Proof. intros Ha. unfold getProp. by rewrite lookup_app_l. Qed.

(** ** Text events *)

Section Text.

Variable shasum stripNamespacesFromPath : string → string.
Variable table : string.
Variable opts : options.

Lemma write_snoc (sub : submission) (st : status) (events : list event) (e : event) :
  write shasum stripNamespacesFromPath table sub opts st (events ++ [e])
  = handle shasum stripNamespacesFromPath table sub opts
      (write shasum stripNamespacesFromPath table sub opts st events) e.
Proof. apply foldl_snoc. Qed.

Lemma write_app (sub : submission) (st : status) (events events' : list event) :
  write shasum stripNamespacesFromPath table sub opts st (events ++ events')
  = write shasum stripNamespacesFromPath table sub opts
      (write shasum stripNamespacesFromPath table sub opts st events) events'.
Proof. apply foldl_app. Qed.

(** What [ontext] does at a field inside the table whose row is at [a]. *)
Lemma ontext_inside (s : state) (text : string) (fieldPtr : field) (a : addr) :
  mjoin (ptr (fieldStack s)) = Some fieldPtr →
  getBranchState (fieldStack s) table = Some Inside →
  mjoin (ptr (dataStack s)) = Some a →
  ontext table opts s text
  = Some (match coerce opts (type fieldPtr) text with
          | Some v => withHeap s (setProp (heap s) a
                        (nsTarget (mjoin (ptr (nsStack s))) (name fieldPtr)) v)
          | None => s
          end).
Proof.
  intros Htop Hin Hdata. unfold ontext. rewrite Htop, Hin, Hdata. cbn.
  by destruct (coerce _ _ _).
Qed.




End Text.

(** ** The four stacks move together *)

Section Stacks.

Variable shasum stripNamespacesFromPath : string → string.
Variable table : string.
Variable sub : submission.
Variable opts : options.

Lemma length_pushPtr {A} (undef : A) (stack : list A) :
  length (pushPtr undef stack) = S (length stack).
Proof. unfold pushPtr. rewrite length_app. cbn. lia. Qed.

Lemma length_pop {A} (stack : list A) : length (pop stack) = pred (length stack).
Proof.
  unfold pop. destruct stack as [|x stack] using rev_ind; [done|].
  rewrite removelast_last, length_app. cbn. lia.
Qed.

Lemma pop_snoc {A} (stack : list A) (x : A) : pop (stack ++ [x]) = stack.
Proof. apply removelast_last. Qed.








End Stacks.

(** ** The parent reference *)

Lemma skipToRepeat_app (xs rest : list (field * iteration)) :
  Forall (λ p, type p.1 ≠ Repeat) xs → skipToRepeat (xs ++ rest) = skipToRepeat rest.
Proof.
  induction 1 as [|p xs Hp _ IH]; [done|]. cbn. by case_decide.
Qed.

Lemma cutAtRepeat_nearest (pre post : list (field * iteration)) (r : field * iteration) :
  type r.1 = Repeat → Forall (λ p, type p.1 ≠ Repeat) post →
  cutAtRepeat (pre ++ r :: post) = pre ++ [r].
Proof.
  intros Hr Hpost. unfold cutAtRepeat. rewrite reverse_app, reverse_cons, <- app_assoc.
  rewrite skipToRepeat_app by (by apply Forall_reverse).
  cbn [app skipToRepeat]. case_decide; [|done].
  by rewrite reverse_cons, reverse_involutive.
Qed.

Lemma cutAtRepeat_none (ancestors : list (field * iteration)) :
  Forall (λ p, type p.1 ≠ Repeat) ancestors → cutAtRepeat ancestors = [].
Proof.
  intros Hno. unfold cutAtRepeat.
  rewrite <- (app_nil_r (reverse ancestors)), skipToRepeat_app; [done|].
  by apply Forall_reverse.
Qed.

Lemma popToRepeat_lift (top_first : list (field * iteration)) :
  popToRepeat (lift top_first) = Some (lift (skipToRepeat top_first)).
Proof.
  induction top_first as [|[f i] l IH]; [done|]. cbn. by case_decide.
Qed.

Lemma lift_reverse (anc : list (field * iteration)) : reverse (lift anc) = lift (reverse anc).
Proof. unfold lift. by rewrite fmap_reverse. Qed.

Lemma parentContext_lift (ancestors : list (field * iteration)) (cur : field * iteration) :
  parentContext (lift (ancestors ++ [cur])) = Some (lift (cutAtRepeat ancestors)).
Proof.
  unfold parentContext, cutAtRepeat.
  rewrite lift_reverse, reverse_snoc.
  change (tail (lift (cur :: reverse ancestors))) with (lift (reverse ancestors)).
  rewrite popToRepeat_lift. cbn. by rewrite lift_reverse.
Qed.

Lemma parentReference_lift (shasum : string → string) (sub : submission)
    (ancestors : list (field * iteration)) (cur : field * iteration) :
  parentReference shasum sub (lift (ancestors ++ [cur])) = Some (parentRef shasum sub ancestors).
Proof.
  unfold parentReference, parentRef. rewrite parentContext_lift. cbn [mbind option_bind].
  unfold parentKey. rewrite lift_fst, fieldNames_Some, hashId_lift.
  unfold lift. rewrite length_fmap.
  destruct (cutAtRepeat ancestors) as [|p parent]; by case_decide.
Qed.

Lemma parentRef_key_not_id (shasum : string → string) (sub : submission)
    (ancestors : list (field * iteration)) :
  (parentRef shasum sub ancestors).1 ≠ "__id".
Proof.
  unfold parentRef. destruct (cutAtRepeat ancestors); [done|]. cbn [fst].
  intros Heq. apply (f_equal String.length) in Heq.
  rewrite !string_app_length in Heq. cbn in Heq. lia.
Qed.

(** ** Reachable states *)

Lemma ptr_nulls {A} (l : list A) (k : nat) :
  mjoin (ptr ((Some <$> l) ++ replicate k None)) = match k with O => last l | S _ => None end.
Proof.
  unfold ptr. destruct k as [|k].
  - cbn. rewrite app_nil_r, fmap_last. by destruct (last l).
  - by rewrite replicate_S_end, app_assoc, last_snoc.
Qed.

(** With a field on top of the stack there is no null below it. *)
Lemma consistent_top (fields : gmap string field) (s : state) (fieldPtr : field) :
  consistent fields s → mjoin (ptr (fieldStack s)) = Some fieldPtr →
  ∃ (fs : list field) (ds : list addr) (a : addr),
    fieldStack s = Some <$> rootField fields :: fs
    ∧ last (rootField fields :: fs) = Some fieldPtr
    ∧ dataStack s = Some <$> ds
    ∧ length ds = S (length fs)
    ∧ mjoin (ptr (dataStack s)) = Some a
    ∧ Forall (λ a, (a < length (heap s))%nat) ds
    ∧ (a < length (heap s))%nat
    ∧ length (iterationStack s) = S (length fs)
    ∧ length (nsStack s) = S (length fs).
Proof.
  intros (fs & ds & k & Hf & Hd & Hlen & Hvalid & Hi & Hn) Htop.
  rewrite Hf, ptr_nulls in Htop. destruct k as [|k]; [|done].
  cbn [replicate] in Hf, Hd. rewrite app_nil_r in Hf, Hd.
  destruct (last ds) as [a|] eqn:Hlast.
  2:{ apply last_None in Hlast. subst ds. done. }
  exists fs, ds, a. rewrite Hi, Hn, Hf, length_fmap. cbn [length].
  repeat split; try done.
  - rewrite Hd. unfold ptr. rewrite fmap_last, Hlast. done.
  - apply last_Some in Hlast as [ds' ->]. apply Forall_app in Hvalid as [_ Hvalid].
    by inversion Hvalid.
Qed.

Lemma consistent_push_field (fields : gmap string field) (s s' : state) (fieldPtr f : field)
    (a : addr) :
  consistent fields s → mjoin (ptr (fieldStack s)) = Some fieldPtr →
  fieldStack s' = fieldStack s ++ [Some f] →
  dataStack s' = dataStack s ++ [Some a] →
  (a < length (heap s'))%nat → (length (heap s) ≤ length (heap s'))%nat →
  length (iterationStack s') = S (length (iterationStack s)) →
  length (nsStack s') = S (length (nsStack s)) →
  consistent fields s'.
Proof.
  intros Hs Htop Hf' Hd' Ha Hheap Hi' Hn'.
  destruct (consistent_top fields s fieldPtr Hs Htop)
    as (fs & ds & a0 & Hf & _ & Hd & Hlen & _ & Hvalid & _ & Hi & Hn).
  exists (fs ++ [f]), (ds ++ [a]), 0%nat. cbn [replicate]. rewrite !app_nil_r.
  rewrite Hf', Hd', Hf, Hd, Hi', Hn', Hi, Hn, !length_app, !fmap_app. cbn.
  rewrite fmap_app, length_fmap. cbn.
  repeat split; try done; try lia.
  apply Forall_app. split; [|by constructor].
  eapply Forall_impl; [done|]. cbn. intros; lia.
Qed.

Lemma consistent_push_null (fields : gmap string field) (s s' : state) :
  consistent fields s →
  fieldStack s' = fieldStack s ++ [None] →
  dataStack s' = dataStack s ++ [None] →
  (length (heap s) ≤ length (heap s'))%nat →
  length (iterationStack s') = S (length (iterationStack s)) →
  length (nsStack s') = S (length (nsStack s)) →
  consistent fields s'.
Proof.
  intros (fs & ds & k & Hf & Hd & Hlen & Hvalid & Hi & Hn) Hf' Hd' Hheap Hi' Hn'.
  exists fs, ds, (S k). rewrite !replicate_S_end, !app_assoc.
  rewrite Hf', Hd', Hi', Hn', Hi, Hn, Hf, Hd.
  repeat split; rewrite ?length_app; cbn [length]; try done; try lia.
  eapply Forall_impl; [done|]. cbn. intros; lia.
Qed.

Lemma consistent_pop (fields : gmap string field) (s : state) (name' : string) :
  consistent fields s → length (fieldStack (onclosetag s name')) ≠ 0%nat →
  consistent fields (onclosetag s name').
Proof.
  intros (fs & ds & k & Hf & Hd & Hlen & Hvalid & Hi & Hn) Hne.
  unfold consistent, onclosetag in *.
  cbn [fieldStack dataStack iterationStack nsStack heap] in *.
  rewrite !length_pop, Hi, Hn. destruct k as [|k].
  - cbn [replicate] in *. rewrite app_nil_r in *.
    destruct fs as [|f fs _] using rev_ind.
    { rewrite Hf in Hne. done. }
    destruct ds as [|d ds _] using rev_ind; [done|].
    exists fs, ds, 0%nat. cbn [replicate]. rewrite !app_nil_r.
    rewrite Hf, Hd, app_comm_cons, !fmap_app. cbn [fmap list_fmap].
    rewrite !pop_snoc. rewrite !length_app in Hlen. cbn in Hlen.
    apply Forall_app in Hvalid as [Hvalid _].
    repeat split; try done. lia.
  - exists fs, ds, k. rewrite Hf, Hd, !replicate_S_end, !app_assoc, !pop_snoc.
    repeat split; try done.
Qed.

(** ** Opening a repeat *)

Section Opening.

Variable shasum stripNamespacesFromPath : string → string.
Variable table : string.
Variable sub : submission.

Lemma length_linked (s : state) (fs : list field) (a : addr) (name' : string) (f : field) :
  length (linked shasum s fs a name' f) = length (heap s).
Proof. apply length_setProp. Qed.

Lemma setProp_new (h : list row) (r : row) (n : nat) (key : string) (v : value) :
  length h = n → setProp (h ++ [r]) n key v = h ++ [<[key := v]> r].
Proof.
  intros <-. unfold setProp. rewrite <- (Nat.add_0_r (length h)) at 1. by rewrite alter_app_r.
Qed.

(** [openRepeat] on a stack without null fields: inside the table the repeat
    is skipped; elsewhere it is expanded, unless the parent row holds under
    the name of the repeat something that is not an array, and then the
    callback throws. *)
Lemma openRepeat_cases (s : state) (fs : list field) (a : addr) (name' : string) (f : field) :
  fieldStack s = Some <$> fs →
  mjoin (ptr (dataStack s)) = Some a →
  length (iterationStack s) = length fs →
  openRepeat shasum table sub s name' f
  = if decide (impliedTableName (fs ++ [f]) = table)
    then match getProp (linked shasum s fs a name' f) a name' with
         | None => Some (expanded shasum sub s fs a name' f [] true)
         | Some (VRows bags) => Some (expanded shasum sub s fs a name' f bags true)
         | Some _ => None
         end
    else if Js.startsWith (impliedTableName (fs ++ [f])) table
    then Some (skipped shasum s fs a name' f)
    else match getProp (linked shasum s fs a name' f) a name' with
         | None => Some (expanded shasum sub s fs a name' f [] false)
         | Some (VRows bags) => Some (expanded shasum sub s fs a name' f bags false)
         | Some _ => None
         end.
Proof.
  intros Hf Hd Hi. unfold openRepeat. rewrite Hd, Hf, <- fmap_snoc. cbn [mbind option_bind].
  rewrite navigationLink_Some, getBranchState_Some. cbn [mbind option_bind].
  fold (linked shasum s fs a name' f).
  assert (∀ (bags : list addr) (at_ : bool),
    (hashId shasum (zip (Some <$> fs ++ [f]) (iterationStack s ++ [INum (length bags)])) ≫= λ id,
      let bag := length (linked shasum s fs a name' f) in
      let h2 := setProp (linked shasum s fs a name' f) a name' (VRows (bags ++ [bag]))
                ++ [ {[ "__id" := VStr id ]} ] in
      let s' := State (result s) (Some <$> fs ++ [f]) (dataStack s ++ [Some bag])
                      (iterationStack s ++ [INum (length bags)]) (nsStack s ++ [None])
                      (droppedWrapper s) h2 in
      if decide ((if at_ then At else Outside) = 0)
      then parentReference shasum sub
             (zip (Some <$> fs ++ [f]) (iterationStack s ++ [INum (length bags)])) ≫= λ ref,
           Some (withHeap (withResult s' (result s ++ [bag])) (setProp h2 bag ref.1 ref.2))
      else Some s')
    = Some (expanded shasum sub s fs a name' f bags at_)) as Hexp.
  { intros bags at_. rewrite lift_zip, zip_with_app by done. cbn [zip_with].
    rewrite hashId_lift. cbn [mbind option_bind]. rewrite length_linked.
    unfold expanded, newRow, newId. rewrite Hf, fmap_snoc.
    destruct at_; unfold At, Outside; case_decide; try done.
    rewrite parentReference_lift. cbn [mbind option_bind]. unfold withHeap, withResult. cbn.
    rewrite setProp_new; [done|]. by rewrite length_setProp, length_linked. }
  destruct (decide (impliedTableName (fs ++ [f]) = table)) as [Heq|Hne].
  - destruct (decide (At < 1)) as [_|Hlt]; [|by destruct Hlt].
    destruct (getProp _ _ _) as [[]|]; cbn [mbind option_bind]; try done;
      apply (Hexp _ true).
  - destruct (Js.startsWith _ _).
    + destruct (decide (Inside < 1)) as [Hlt|_]; [done|]. unfold skipped.
      by rewrite fmap_snoc, pop_snoc, <- Hf.
    + destruct (decide (Outside < 1)) as [_|Hlt]; [|by destruct Hlt].
      destruct (getProp _ _ _) as [[]|]; cbn [mbind option_bind]; try done;
        apply (Hexp _ false).
Qed.

End Opening.

Section Reachable.

Variable shasum stripNamespacesFromPath : string → string.
Variable table : string.
Variable sub : submission.
Variable opts : options.
Variable fields : gmap string field.

Lemma pushPtr_top {A} (stack : list (option A)) (x : A) :
  mjoin (ptr stack) = Some x → pushPtr None stack = stack ++ [Some x].
Proof. unfold pushPtr. destruct (ptr stack) as [[y|]|]; cbn; congruence. Qed.

Lemma length_expanded_heap (s : state) (fs : list field) (a : addr) (name' : string)
    (f : field) (bags : list addr) (atTable : bool) :
  length (heap (expanded shasum sub s fs a name' f bags atTable)) = S (length (heap s)).
Proof.
  cbn. rewrite length_app, length_setProp, length_linked. cbn. lia.
Qed.

Lemma expanded_consistent (s : state) (fieldPtr : field) (fs : list field) (a : addr)
    (name' : string) (f : field) (bags : list addr) (atTable : bool) :
  consistent fields s → mjoin (ptr (fieldStack s)) = Some fieldPtr →
  consistent fields (expanded shasum sub s fs a name' f bags atTable).
Proof.
  intros Hs Htop.
  apply (consistent_push_field fields s _ fieldPtr f (length (heap s))); try done.
  - rewrite length_expanded_heap. lia.
  - rewrite length_expanded_heap. lia.
  - cbn. rewrite length_app. cbn. lia.
  - cbn. rewrite length_app. cbn. lia.
Qed.

Lemma skipped_consistent (s : state) (fs : list field) (a : addr) (name' : string) (f : field) :
  consistent fields s → consistent fields (skipped shasum s fs a name' f).
Proof.
  intros Hs. apply (consistent_push_null fields s); try done.
  - cbn. by rewrite length_linked.
  - cbn. rewrite length_app. cbn. lia.
  - cbn. rewrite length_app. cbn. lia.
Qed.

Lemma onopentag_consistent (s s' : state) (fullname : string) :
  consistent fields s →
  onopentag shasum stripNamespacesFromPath table sub s fullname = Some s' →
  consistent fields s'.
Proof.
  intros Hs. unfold onopentag. destruct (droppedWrapper s); cbn [negb].
  2:{ intros [= <-]. exact Hs. }
  assert (consistent fields (push s None None INull None)) as Hnull.
  { apply (consistent_push_null fields s); try done; cbn; rewrite length_app; cbn; lia. }
  destruct (mjoin (ptr (fieldStack s))) as [fieldPtr|] eqn:Htop; cbn [mbind option_bind].
  2:{ by intros [= <-]. }
  destruct (children fieldPtr !! _) as [f|]; [|by intros [= <-]].
  destruct (consistent_top fields s fieldPtr Hs Htop)
    as (fs & ds & a & Hf & _ & Hd & Hlen & Hda & _ & Ha & Hi & Hn).
  assert (∀ i ns, consistent fields
            (State (result s) (fieldStack s ++ [Some f]) (pushPtr None (dataStack s))
                   i (nsStack s ++ [ns]) (droppedWrapper s) (heap s))
          ∨ length i ≠ S (length (iterationStack s))) as Hscalar.
  { intros i ns. destruct (decide (length i = S (length (iterationStack s)))); [left|by right].
    apply (consistent_push_field fields s _ fieldPtr f a); try done.
    - cbn. by apply pushPtr_top.
    - cbn. rewrite length_app. cbn. lia. }
  destruct (type f).
  - intros [= <-]. destruct (Hscalar (iterationStack s ++ [IStr ""])
      (Some (nsTarget (mjoin (ptr (nsStack s))) (name f)))) as [?|Hne]; [done|].
    rewrite length_app in Hne. cbn in Hne. lia.
  - rewrite (openRepeat_cases shasum table sub s (rootField fields :: fs) a _ f Hf Hda)
      by (cbn; lia).
    intros Hopen. repeat case_match; simplify_eq;
      by (eapply expanded_consistent || apply skipped_consistent).
  - intros [= <-]. unfold pushPtr at 3. destruct (Hscalar (pushPtr IUndefined (iterationStack s))
      (default None (ptr (nsStack s)))) as [?|Hne]; [done|].
    rewrite length_pushPtr in Hne. lia.
  - intros [= <-]. unfold pushPtr at 3. destruct (Hscalar (pushPtr IUndefined (iterationStack s))
      (default None (ptr (nsStack s)))) as [?|Hne]; [done|].
    rewrite length_pushPtr in Hne. lia.
  - intros [= <-]. unfold pushPtr at 3. destruct (Hscalar (pushPtr IUndefined (iterationStack s))
      (default None (ptr (nsStack s)))) as [?|Hne]; [done|].
    rewrite length_pushPtr in Hne. lia.
  - intros [= <-]. unfold pushPtr at 3. destruct (Hscalar (pushPtr IUndefined (iterationStack s))
      (default None (ptr (nsStack s)))) as [?|Hne]; [done|].
    rewrite length_pushPtr in Hne. lia.
Qed.

Lemma withHeap_consistent (s : state) (h : list row) :
  consistent fields s → length h = length (heap s) → consistent fields (withHeap s h).
Proof.
  intros (fs & ds & k & Hf & Hd & Hlen & Hvalid & Hi & Hn) Hh.
  exists fs, ds, k. cbn. rewrite Hh. done.
Qed.

Lemma ontext_consistent (s s' : state) (text : string) :
  consistent fields s → ontext table opts s text = Some s' → consistent fields s'.
Proof.
  intros Hs. unfold ontext. intros Htext.
  repeat (case_match || simplify_option_eq); try done.
  apply withHeap_consistent; [done|]. apply length_setProp.
Qed.

Lemma initial_consistent : consistent fields (initial fields table sub).
Proof.
  exists [], [0%nat], 0%nat. cbn. repeat split; try done.
  constructor; [lia|constructor].
Qed.

Lemma reached_consistent (events : list event) (s : state) :
  reached shasum stripNamespacesFromPath table sub opts fields events s → consistent fields s.
Proof.
  unfold reached. revert s. induction events as [|e events IH] using rev_ind; intros s.
  - intros [= <-]. apply initial_consistent.
  - rewrite write_snoc.
    destruct (write _ _ _ _ _ _ events) as [s0| |]; [|done..].
    specialize (IH s0 eq_refl). destruct e as [fullname|text|name']; cbn [handle].
    + destruct (onopentag _ _ _ _ _ _) eqn:Hopen; [|done]. intros [= <-].
      by eapply onopentag_consistent.
    + destruct (ontext _ _ _ _) eqn:Htext; [|done]. intros [= <-].
      by eapply ontext_consistent.
    + case_decide; [done|]. intros [= <-]. by apply consistent_pop.
Qed.

End Reachable.

(** ** Rows at the table *)

Lemma omap_id_Some {A} (l : list A) : omap id (Some <$> l) = l.
Proof. induction l as [|x l IH]; [done|]. cbn. by rewrite IH. Qed.

Lemma linkKey_ne (ns : option string) (name' : string) :
  nsTarget ns name' +:+ "@odata.navigationLink" ≠ name'.
Proof.
  intros Heq. apply (f_equal String.length) in Heq.
  destruct ns; cbn [nsTarget] in Heq; rewrite !string_app_length in Heq; cbn in Heq; lia.
Qed.

Lemma getProp_linked (shasum : string → string) (s : state) (fs : list field) (a b : addr)
    (name' key : string) (f : field) :
  key ≠ nsTarget (mjoin (ptr (nsStack s))) name' +:+ "@odata.navigationLink" →
  getProp (linked shasum s fs a name' f) b key = getProp (heap s) b key.
Proof. intros Hne. unfold linked. apply getProp_setProp_ne. right. congruence. Qed.

Section AtTable.

Variable shasum stripNamespacesFromPath : string → string.
Variable table : string.
Variable sub : submission.
Variable opts : options.
Variable fields : gmap string field.

Lemma open_repeat_at_table (events : list event) (s : state)
    (fullname : string) (fieldPtr f : field) (a : addr) :
  reached shasum stripNamespacesFromPath table sub opts fields events s →
  droppedWrapper s = true →
  mjoin (ptr (fieldStack s)) = Some fieldPtr →
  children fieldPtr !! stripNamespacesFromPath fullname = Some f →
  type f = Repeat →
  getBranchState (fieldStack s ++ [Some f]) table = Some At →
  mjoin (ptr (dataStack s)) = Some a →
  (∀ v, getProp (heap s) a (stripNamespacesFromPath fullname) = Some v → ∃ bags, v = VRows bags) →
  ∃ (s' : state) (position : nat) (key : string) (ref : value),
    onopentag shasum stripNamespacesFromPath table sub s fullname = Some s'
    ∧ result s' = result s ++ [length (heap s)]
    ∧ heap s' !! length (heap s)
      = Some (<[key := ref]>
               {[ "__id" := VStr (shasum (digestInput (ancestry s ++ [(f, INum position)]))) ]})
    ∧ key ≠ "__id"
    ∧ (∀ pre r post,
         ancestry s = pre ++ r :: post → type r.1 = Repeat →
         Forall (λ p, type p.1 ≠ Repeat) post →
         key = "__" +:+ Js.join "-" (name <$> (pre ++ [r]).*1) +:+ "-id"
         ∧ ref = VStr (shasum (digestInput (pre ++ [r]))))
    ∧ (Forall (λ p, type p.1 ≠ Repeat) (ancestry s) →
         key = "__Submissions-id" ∧ ref = VStr (instanceId sub)).
Proof.
  intros Hreached Hdropped Htop Hchild Htype Hat Hdata Hfree.
  pose proof (reached_consistent _ _ _ _ _ _ _ _ Hreached) as Hs.
  destruct (consistent_top fields s fieldPtr Hs Htop)
    as (fs & ds & a' & Hf & _ & Hd & Hlen & Hda & _ & Ha & Hi & Hn).
  assert (a' = a) as -> by congruence.
  set (fs0 := rootField fields :: fs) in *.
  assert (ancestry s = zip fs0 (iterationStack s)) as Hanc.
  { unfold ancestry. by rewrite Hf, omap_id_Some. }
  rewrite Hf, <- fmap_snoc in Hat. apply getBranchState_cases in Hat.
  unfold onopentag. rewrite Hdropped, Htop. cbn [negb mbind option_bind].
  rewrite Hchild, Htype.
  rewrite (openRepeat_cases shasum table sub s fs0 a _ f Hf Hda) by (unfold fs0; cbn; lia).
  rewrite decide_True by done. rewrite getProp_linked by (symmetry; apply linkKey_ne).
  assert (∃ bags, match getProp (heap s) a (stripNamespacesFromPath fullname) with
                  | Some (VRows bags) =>
                      Some (expanded shasum sub s fs0 a (stripNamespacesFromPath fullname) f bags true)
                  | None => Some (expanded shasum sub s fs0 a (stripNamespacesFromPath fullname) f [] true)
                  | _ => None
                  end = Some (expanded shasum sub s fs0 a (stripNamespacesFromPath fullname) f bags true))
    as [bags ->].
  { destruct (getProp (heap s) a _) as [v|] eqn:Hv; [|by exists []].
    destruct (Hfree v eq_refl) as [bags ->]. by exists bags. }
  exists (expanded shasum sub s fs0 a (stripNamespacesFromPath fullname) f bags true),
    (length bags), (parentRef shasum sub (zip fs0 (iterationStack s))).1,
    (parentRef shasum sub (zip fs0 (iterationStack s))).2.
  split; [done|]. split; [done|]. split.
  { cbn [heap expanded]. rewrite lookup_app_r by (by rewrite length_setProp, length_linked).
    rewrite length_setProp, length_linked, Nat.sub_diag. cbn.
    unfold newRow, newId. by rewrite Hanc. }
  split; [apply parentRef_key_not_id|]. rewrite Hanc. unfold parentRef. split.
  - intros pre r post -> Hr Hpost. rewrite (cutAtRepeat_nearest pre post r Hr Hpost).
    by destruct pre.
  - intros Hnone. by rewrite (cutAtRepeat_none _ Hnone).
Qed.

(** C3. A repeat element that is opened at the table, in a state reached
    while the document is read: it is handled unless the row of its parent
    already holds something that is not an array under its name; the new row
    is appended to the result and holds, besides the [__id] of its own
    ancestry, one more key, the reference to its parent. When the ancestry
    (without the new entry) has a repeat, the key is [__<names>-id], with the
    names of the ancestry down to the nearest repeat joined by dashes, and the
    value is the content hash of that part of the ancestry, which is the id
    of that instance of the ancestor; when it has none, the key is
    [__Submissions-id] and the value the instance id of the submission. *)
Theorem repeat_at_table_parent_reference (events : list event) (s : state)
    (fullname : string) (fieldPtr f : field) (a : addr) :
  reached shasum stripNamespacesFromPath table sub opts fields events s →
  droppedWrapper s = true →
  mjoin (ptr (fieldStack s)) = Some fieldPtr →
  children fieldPtr !! stripNamespacesFromPath fullname = Some f →
  type f = Repeat →
  getBranchState (fieldStack s ++ [Some f]) table = Some At →
  mjoin (ptr (dataStack s)) = Some a →
  (∀ v, getProp (heap s) a (stripNamespacesFromPath fullname) = Some v → ∃ bags, v = VRows bags) →
  ∃ (s' : state) (position : nat) (key : string) (ref : value),
    onopentag shasum stripNamespacesFromPath table sub s fullname = Some s'
    ∧ result s' = result s ++ [length (heap s)]
    ∧ heap s' !! length (heap s)
      = Some (<[key := ref]>
               {[ "__id" := VStr (shasum (digestInput (ancestry s ++ [(f, INum position)]))) ]})
    ∧ key ≠ "__id"
    ∧ (∀ pre r post,
         ancestry s = pre ++ r :: post → type r.1 = Repeat →
         Forall (λ p, type p.1 ≠ Repeat) post →
         key = "__" +:+ Js.join "-" (name <$> (pre ++ [r]).*1) +:+ "-id"
         ∧ ref = VStr (shasum (digestInput (pre ++ [r]))))
    ∧ (Forall (λ p, type p.1 ≠ Repeat) (ancestry s) →
         key = "__Submissions-id" ∧ ref = VStr (instanceId sub)).
Proof. apply open_repeat_at_table. Qed.

End AtTable.

(** ** Row identity *)

Lemma hashInput_Some (ctx : list (option field * iteration)) (text : string) :
  hashInput ctx = Some text → ∃ anc, ctx = lift anc ∧ text = digestInput anc.
Proof.
  unfold hashInput. destruct (mapM contextKey ctx) as [keys|] eqn:Hkeys; [|done].
  intros [= <-].
  assert (∃ anc, ctx = lift anc) as [anc ->].
  { revert keys Hkeys. induction ctx as [|[[f|] i] ctx IH]; intros keys Hkeys.
    - by exists [].
    - cbn in Hkeys. destruct (mapM contextKey ctx) as [keys'|] eqn:Hkeys'; [|done].
      destruct (IH keys' eq_refl) as [anc ->]. by exists ((f, i) :: anc).
    - done. }
  exists anc. split; [done|].
  pose proof (hashInput_lift anc) as Hlift. unfold hashInput in Hlift.
  rewrite Hkeys in Hlift. by injection Hlift.
Qed.

Lemma parentReference_key_not_id (shasum : string → string) (sub : submission)
    (ctx : list (option field * iteration)) (ref : string * value) :
  parentReference shasum sub ctx = Some ref → ref.1 ≠ "__id".
Proof.
  unfold parentReference, parentKey. intros Href Heq.
  destruct (parentContext ctx) as [parent|]; [|done]. cbn [mbind option_bind] in Href.
  case_decide; [by simplify_eq|].
  destruct (fieldNames _) as [names|]; [|done]. cbn [mbind option_bind] in Href.
  destruct (hashId _ _) as [id|]; [|done]. injection Href as <-.
  cbn in Heq. apply (f_equal String.length) in Heq.
  rewrite !string_app_length in Heq. cbn in Heq. lia.
Qed.

Section Identity.

Variable shasum stripNamespacesFromPath : string → string.

Lemma openRepeat_creates_row (table : string) (sub : submission) (s s' : state)
    (name' : string) (f : field) :
  openRepeat shasum table sub s name' f = Some s' →
  length (heap s') = S (length (heap s)) →
  ∃ id, hashId shasum (zip (fieldStack s') (iterationStack s')) = Some id
        ∧ getProp (heap s') (length (heap s)) "__id" = Some (VStr id).
Proof.
  unfold openRepeat. intros Hopen Hgrew.
  destruct (mjoin (ptr (dataStack s))) as [a|]; [|done]. cbn [mbind option_bind] in Hopen.
  destruct (navigationLink _ _ _) as [link|]; [|done]. cbn [mbind option_bind] in Hopen.
  destruct (getBranchState _ _) as [branchState|]; [|done]. cbn [mbind option_bind] in Hopen.
  set (h1 := setProp (heap s) a _ _) in *.
  assert (length h1 = length (heap s)) as Hh1 by apply length_setProp.
  case_decide.
  2:{ injection Hopen as <-. cbn in Hgrew. lia. }
  destruct (match getProp h1 a name' with
            | Some (VRows bags) => Some bags | None => Some [] | _ => None end)
    as [bags|]; [|done].
  cbn [mbind option_bind] in Hopen.
  destruct (hashId _ _) as [id|] eqn:Hid; [|done]. cbn [mbind option_bind] in Hopen.
  exists id. rewrite Hh1 in Hopen.
  assert (getProp (setProp h1 a name' (VRows (bags ++ [length (heap s)]))
                   ++ [ {[ "__id" := VStr id ]} ]) (length (heap s)) "__id"
          = Some (VStr id)) as Hrow.
  { unfold getProp. rewrite lookup_app_r by (rewrite length_setProp; lia).
    rewrite length_setProp, Hh1, Nat.sub_diag. cbn. by rewrite lookup_singleton_eq. }
  case_decide.
  - destruct (parentReference _ _ _) as [ref|] eqn:Href; [|done].
    injection Hopen as <-. cbn. split; [done|].
    rewrite getProp_setProp_ne; [done|]. right.
    by eapply parentReference_key_not_id.
  - injection Hopen as <-. by cbn.
Qed.

(** A row is made by an open tag, with the content hash of the stacks as they
    are once its entry is pushed. *)
Lemma onopentag_creates_row (table : string) (sub : submission) (s s' : state)
    (fullname : string) :
  onopentag shasum stripNamespacesFromPath table sub s fullname = Some s' →
  length (heap s') = S (length (heap s)) →
  ∃ anc, zip (fieldStack s') (iterationStack s') = lift anc
         ∧ getProp (heap s') (length (heap s)) "__id" = Some (VStr (shasum (digestInput anc))).
Proof.
  intros Hopen Hgrew.
  assert (∃ id, hashId shasum (zip (fieldStack s') (iterationStack s')) = Some id
                ∧ getProp (heap s') (length (heap s)) "__id" = Some (VStr id))
    as (id & Hid & Hrow).
  { unfold onopentag in Hopen.
    repeat (case_match || simplify_option_eq); cbn in Hgrew; try lia.
    by eapply openRepeat_creates_row. }
  unfold hashId in Hid. destruct (hashInput _) as [text|] eqn:Htext; [|done].
  injection Hid as <-. apply hashInput_Some in Htext as (anc & Hanc & ->). by exists anc.
Qed.


End Identity.

(** ** The root table *)


Section RootTable.

Variable shasum stripNamespacesFromPath : string → string.
Variable table : string.
Variable sub : submission.
Variable opts : options.
Variable fields : gmap string field.







End RootTable.

(** ** How a conversion ends *)

Section Ending.

Variable shasum stripNamespacesFromPath : string → string.
Variable table : string.
Variable sub : submission.
Variable opts : options.
Variable fields : gmap string field.

Lemma write_Resolved (s : state) (events : list event) :
  write shasum stripNamespacesFromPath table sub opts (Resolved s) events = Resolved s.
Proof. induction events as [|e events IH]; [done|]. exact IH. Qed.

Lemma write_Rejected (events : list event) :
  write shasum stripNamespacesFromPath table sub opts Rejected events = Rejected.
Proof. induction events as [|e events IH]; [done|]. exact IH. Qed.

Lemma onopentag_dropped (s s' : state) (fullname : string) :
  onopentag shasum stripNamespacesFromPath table sub s fullname = Some s' →
  droppedWrapper s' = true.
Proof.
  unfold onopentag, openRepeat. intros Hopen.
  destruct (droppedWrapper s) eqn:Hdropped; cbn [negb] in Hopen; [|by simplify_eq].
  repeat (case_match || simplify_option_eq); done.
Qed.

Lemma ontext_dropped (s s' : state) (text : string) :
  ontext table opts s text = Some s' → droppedWrapper s' = droppedWrapper s.
Proof.
  unfold ontext. intros Htext. repeat (case_match || simplify_option_eq); done.
Qed.






End Ending.

(** * Elements, rows and the store *)

(** ** More on the branch locator *)

(** X1. [getBranchState] throws on a stack that holds a null field, and on no
    other stack. *)
Theorem getBranchState_throws_on_null_only (fieldStack : list (option field)) (table : string) :
  getBranchState fieldStack table = None ↔ None ∈ fieldStack.
Proof.
  split.
  - unfold getBranchState, fieldNames. intros Hnone.
    destruct (mapM (fmap name) fieldStack) as [names|] eqn:Hnames; [done|].
    clear Hnone. induction fieldStack as [|[f|] rest IH].
    + done.
    + right. apply IH. cbn in Hnames.
      by destruct (mapM (fmap name) rest).
    + left.
  - intros Hin. unfold getBranchState. by rewrite fieldNames_null.
Qed.

Lemma impliedTableName_app (fs gs : list field) :
  fs ≠ [] → gs ≠ [] →
  impliedTableName (fs ++ gs) = impliedTableName fs +:+ "." +:+ impliedTableName gs.
Proof.
  intros Hfs Hgs. unfold impliedTableName. rewrite fmap_app.
  destruct gs as [|g gs]; [done|]. rewrite fmap_cons. clear Hgs.
  induction fs as [|f fs IH]; [done|]. clear Hfs.
  destruct fs as [|f' fs].
  - cbn [fmap list_fmap app]. by rewrite join_cons.
  - rewrite fmap_cons. cbn [app]. rewrite join_cons.
    rewrite (join_cons "." (name f)). cbn [joinTail fmap list_fmap app] in *.
    rewrite IH by done. by rewrite !string_app_assoc.
Qed.

(** Below a path that has the table as a prefix every path is inside. *)
Lemma inside_below (fs gs : list field) (table : string) :
  fs ≠ [] → gs ≠ [] → Js.startsWith (impliedTableName fs) table = true →
  getBranchState (Some <$> fs ++ gs) table = Some Inside.
Proof.
  intros Hfs Hgs Hprefix. apply getBranchState_cases.
  apply startsWith_spec in Hprefix as [rest Hrest].
  rewrite impliedTableName_app, Hrest by done. split.
  - intros Heq. apply (f_equal String.length) in Heq.
    rewrite !string_app_length in Heq. cbn in Heq. lia.
  - exists (rest +:+ "." +:+ impliedTableName gs). by rewrite !string_app_assoc.
Qed.

(** X2. Once the path is at the table or inside it, every longer path is
    inside: the walker stays inside the table for all that is nested in a
    row of it. *)
Theorem getBranchState_below_table (fs gs : list field) (table : string) :
  fs ≠ [] → gs ≠ [] →
  getBranchState (Some <$> fs) table = Some At
  ∨ getBranchState (Some <$> fs) table = Some Inside →
  getBranchState (Some <$> fs ++ gs) table = Some Inside.
Proof.
  intros Hfs Hgs Hstate. apply inside_below; [done..|].
  apply startsWith_spec. destruct Hstate as [Hat|Hin].
  - apply getBranchState_cases in Hat. exists EmptyString. by rewrite string_app_nil_r.
  - apply getBranchState_cases in Hin as [_ Hrest]. exact Hrest.
Qed.

(** ** Elements and their content *)

Lemma getBranchState_Some_inv (fieldStack : list (option field)) (table : string) (b : Z) :
  getBranchState fieldStack table = Some b → ∃ fs, fieldStack = Some <$> fs.
Proof.
  intros Hstate. assert (None ∉ fieldStack) as Hnone.
  { intros Hin. unfold getBranchState in Hstate. by rewrite fieldNames_null in Hstate. }
  clear Hstate. induction fieldStack as [|[f|] rest IH].
  - by exists [].
  - destruct IH as [fs ->]; [by intros Hin; apply Hnone; right|]. by exists (f :: fs).
  - destruct Hnone. left.
Qed.

Lemma ptr_snoc_nulls {A} (l : list (option A)) (depth : nat) :
  ptr l = Some None → ptr (l ++ replicate depth None) = Some None.
Proof.
  intros Htop. unfold ptr in *. destruct depth as [|depth].
  - by rewrite app_nil_r.
  - by rewrite replicate_S_end, app_assoc, last_snoc.
Qed.

Lemma pushNulls_0 (s : state) : pushNulls 0 s = s.
Proof. destruct s. unfold pushNulls. cbn. by rewrite !app_nil_r. Qed.

Lemma pop_replicate {A} (l : list A) (x : A) (depth : nat) :
  pop (l ++ replicate (S depth) x) = l ++ replicate depth x.
Proof. by rewrite replicate_S_end, app_assoc, pop_snoc. Qed.

Section Elements.

Variable shasum stripNamespacesFromPath : string → string.
Variable table : string.
Variable sub : submission.
Variable opts : options.

Lemma write_cons (st : status) (e : event) (events : list event) :
  write shasum stripNamespacesFromPath table sub opts st (e :: events)
  = write shasum stripNamespacesFromPath table sub opts
      (handle shasum stripNamespacesFromPath table sub opts st e) events.
Proof. done. Qed.

(** Under a null field the callbacks only count the depth. *)
Lemma write_nulls (s : state) (events : list event) (depth depth' : nat) :
  droppedWrapper s = true → ptr (fieldStack s) = Some None →
  nesting depth events = Some depth' →
  write shasum stripNamespacesFromPath table sub opts (Pending (pushNulls depth s)) events
  = Pending (pushNulls depth' s).
Proof.
  intros Hdropped Htop. revert depth.
  induction events as [|[fullname|text|name'] events IH]; intros depth Hnesting.
  - cbn in Hnesting. by injection Hnesting as <-.
  - rewrite write_cons. cbn [handle nesting] in *. unfold onopentag.
    cbn [droppedWrapper pushNulls fieldStack]. rewrite Hdropped, ptr_snoc_nulls by done.
    cbn [negb mjoin option_join mbind option_bind].
    assert (push (pushNulls depth s) None None INull None = pushNulls (S depth) s) as ->.
    { unfold push, pushNulls.
      cbn [result fieldStack dataStack iterationStack nsStack droppedWrapper heap].
      by rewrite !replicate_S_end, !app_assoc. }
    by apply IH.
  - rewrite write_cons. cbn [handle nesting] in *. unfold ontext.
    cbn [pushNulls fieldStack]. rewrite ptr_snoc_nulls by done. cbn [mjoin option_join].
    by apply IH.
  - rewrite write_cons. cbn [handle nesting] in *. destruct depth as [|depth]; [done|].
    assert (onclosetag (pushNulls (S depth) s) name' = pushNulls depth s) as ->.
    { unfold onclosetag, pushNulls.
      cbn [result fieldStack dataStack iterationStack nsStack droppedWrapper heap].
      by rewrite !pop_replicate. }
    rewrite decide_False; [by apply IH|].
    cbn. rewrite length_app. destruct (fieldStack s); [done|]. cbn. lia.
Qed.

Lemma openRepeat_pushes (s s' : state) (name' : string) (f : field) :
  openRepeat shasum table sub s name' f = Some s' → above s 1 s'.
Proof.
  unfold openRepeat, above. intros Hopen.
  repeat (case_match || simplify_option_eq); cbn; rewrite ?pop_snoc;
    repeat split; by eexists [_].
Qed.

Lemma onopentag_pushes (s s' : state) (fullname : string) :
  droppedWrapper s = true →
  onopentag shasum stripNamespacesFromPath table sub s fullname = Some s' → above s 1 s'.
Proof.
  unfold onopentag. intros -> Hopen. cbn [negb] in Hopen.
  destruct (mjoin (ptr (fieldStack s)) ≫= _) as [f|].
  2:{ injection Hopen as <-. unfold above. cbn. repeat split; by eexists [_]. }
  destruct (type f); try by eapply openRepeat_pushes.
  all: injection Hopen as <-; unfold above, pushPtr; cbn; repeat split; by eexists [_].
Qed.

Lemma above_push (s t t' : state) (depth : nat) :
  above s depth t → above t 1 t' → above s (S depth) t'.
Proof.
  intros ((fs & Hf & Hfl) & (ds & Hd & Hdl) & (its & Hi & Hil) & (nss & Hn & Hnl))
         ((fs' & Hf' & Hfl') & (ds' & Hd' & Hdl') & (its' & Hi' & Hil') & (nss' & Hn' & Hnl')).
  unfold above. rewrite Hf', Hd', Hi', Hn', Hf, Hd, Hi, Hn, <- !app_assoc.
  repeat split; eexists; (split; [done|]); rewrite length_app; lia.
Qed.

Lemma above_pop (s t : state) (depth : nat) (name' : string) :
  above s (S depth) t → above s depth (onclosetag t name').
Proof.
  intros ((fs & Hf & Hfl) & (ds & Hd & Hdl) & (its & Hi & Hil) & (nss & Hn & Hnl)).
  destruct fs as [|f fs _] using rev_ind; [done|].
  destruct ds as [|d ds _] using rev_ind; [done|].
  destruct its as [|i its _] using rev_ind; [done|].
  destruct nss as [|n nss _] using rev_ind; [done|].
  rewrite length_app in Hfl, Hdl, Hil, Hnl. cbn in Hfl, Hdl, Hil, Hnl.
  unfold above, onclosetag. cbn. rewrite Hf, Hd, Hi, Hn, !app_assoc, !pop_snoc.
  repeat split; eexists; (split; [done|]); lia.
Qed.

Lemma above_text (s t t' : state) (depth : nat) (text : string) :
  above s depth t → ontext table opts t text = Some t' → above s depth t'.
Proof.
  unfold ontext, above. intros Habove Htext.
  repeat (case_match || simplify_option_eq); done.
Qed.

(** The entries that are on the stacks when an element is opened are not
    touched before it is closed. *)
Lemma write_above (s t : state) (events : list event) (depth depth' : nat) :
  fieldStack s ≠ [] → droppedWrapper t = true → above s depth t →
  nesting depth events = Some depth' →
  match write shasum stripNamespacesFromPath table sub opts (Pending t) events with
  | Pending t' => above s depth' t' ∧ droppedWrapper t' = true
  | Resolved _ => False
  | Rejected => True
  end.
Proof.
  intros Hbase. revert t depth.
  induction events as [|[fullname|text|name'] events IH]; intros t depth Hdropped Habove Hnesting.
  - cbn in *. by injection Hnesting as <-.
  - rewrite write_cons. cbn [handle nesting] in *.
    destruct (onopentag _ _ _ _ _ _) as [t'|] eqn:Hopen.
    2:{ clear. by induction events. }
    apply (IH t' (S depth)); [by eapply onopentag_dropped| |done].
    eapply above_push; [done|]. by eapply onopentag_pushes.
  - rewrite write_cons. cbn [handle nesting] in *.
    destruct (ontext _ _ _ _) as [t'|] eqn:Htext.
    2:{ clear. by induction events. }
    apply (IH t' depth); [|by eapply above_text|done].
    erewrite ontext_dropped; done.
  - rewrite write_cons. cbn [handle nesting] in *. destruct depth as [|depth]; [done|].
    pose proof (above_pop s t depth name' Habove) as Hpop.
    rewrite decide_False.
    + by apply (IH _ depth).
    + destruct Hpop as ((fs & -> & _) & _). rewrite length_app.
      destruct (fieldStack s); [done|]. cbn. lia.
Qed.


(** X4. A repeat that is opened inside the table is not expanded: its
    navigation link is written on the current row, and then the element is
    skipped with all its content, so that after its close tag the closure
    differs from the state before the open tag in that one property. *)
Theorem repeat_inside_table_is_skipped (s : state) (fullname name' : string)
    (content : list event) (fieldPtr f : field) (a : addr) :
  droppedWrapper s = true →
  mjoin (ptr (fieldStack s)) = Some fieldPtr →
  children fieldPtr !! stripNamespacesFromPath fullname = Some f →
  type f = Repeat →
  getBranchState (fieldStack s ++ [Some f]) table = Some Inside →
  mjoin (ptr (dataStack s)) = Some a →
  balanced content →
  ∃ link,
    navigationLink shasum (fieldStack s ++ [Some f]) (iterationStack s) = Some link
    ∧ write shasum stripNamespacesFromPath table sub opts (Pending s)
        (OpenTag fullname :: content ++ [CloseTag name'])
      = Pending (withHeap s
          (setProp (heap s) a
             (nsTarget (mjoin (ptr (nsStack s))) (stripNamespacesFromPath fullname)
              +:+ "@odata.navigationLink") (VStr link))).
Proof.
  intros Hdropped Htop Hchild Htype Hinside Hdata Hcontent.
  destruct (getBranchState_Some_inv _ _ _ Hinside) as [fs Hfs].
  exists (linkPath shasum (contextFrom 0 fs (iterationStack s))).
  assert (navigationLink shasum (fieldStack s ++ [Some f]) (iterationStack s)
          = Some (linkPath shasum (contextFrom 0 fs (iterationStack s)))) as Hlink.
  { rewrite Hfs. apply navigationLink_Some. }
  split; [done|].
  rewrite write_cons. cbn [handle]. unfold onopentag.
  rewrite Hdropped, Htop. cbn [negb mbind option_bind]. rewrite Hchild, Htype.
  unfold openRepeat. rewrite Hdata, Hlink, Hinside. cbn [mbind option_bind].
  rewrite decide_False by (unfold Inside; lia). rewrite pop_snoc.
  set (h1 := setProp _ _ _ _).
  set (s1 := State _ _ _ _ _ _ h1).
  rewrite write_app, <- (pushNulls_0 s1).
  rewrite (write_nulls _ _ 0 0); [|done|apply last_snoc|done].
  rewrite pushNulls_0. cbn [write foldl handle].
  assert (onclosetag s1 name' = withHeap s h1) as ->.
  { unfold onclosetag, withHeap, s1. cbn. by rewrite !pop_snoc. }
  rewrite decide_False; [done|]. cbn. intros Hlen.
  destruct (fieldStack s); [|done]. done.
Qed.

(** X5. Content in which every element is closed leaves the four stacks as it
    finds them, whatever it does to the store and to the result, and does not
    resolve the promise. *)
Theorem balanced_content_restores_stacks (s : state) (content : list event) :
  droppedWrapper s = true → fieldStack s ≠ [] → balanced content →
  match write shasum stripNamespacesFromPath table sub opts (Pending s) content with
  | Pending s' =>
      fieldStack s' = fieldStack s ∧ dataStack s' = dataStack s
      ∧ iterationStack s' = iterationStack s ∧ nsStack s' = nsStack s
  | Resolved _ => False
  | Rejected => True
  end.
Proof.
  intros Hdropped Hbase Hcontent.
  assert (above s 0 s) as Hself.
  { unfold above. repeat split; exists []; by rewrite app_nil_r. }
  pose proof (write_above s s content 0 0 Hbase Hdropped Hself Hcontent) as Hrun.
  destruct (write _ _ _ _ _ _ content) as [s'| |]; [|done..].
  destruct Hrun as [((fs & -> & Hfs) & (ds & -> & Hds) & (its & -> & Hits) & (nss & -> & Hnss)) _].
  destruct fs, ds, its, nss; try done. by rewrite !app_nil_r.
Qed.

End Elements.

Section Settling.

Variable shasum stripNamespacesFromPath : string → string.
Variable table : string.
Variable sub : submission.
Variable opts : options.
Variable fields : gmap string field.


End Settling.

(** ** What a conversion never undoes *)

Lemma getProp_lt (h : list row) (a : addr) (key : string) :
  is_Some (getProp h a key) → (a < length h)%nat.
Proof.
  unfold getProp. intros [v Hv]. destruct (h !! a) as [r|] eqn:Hr; [|done].
  by eapply lookup_lt_Some.
Qed.

Lemma setProp_keeps (h : list row) (a b : addr) (key key' : string) (v : value) :
  is_Some (getProp h a key) → is_Some (getProp (setProp h b key' v) a key).
Proof.
  intros Hsome. destruct (decide (b = a ∧ key' = key)) as [[-> ->]|Hne].
  - rewrite getProp_setProp_eq; [by eexists|by eapply getProp_lt].
  - rewrite getProp_setProp_ne; [done|].
    destruct (decide (b = a)) as [->|]; [right|by left]. intros ->. by apply Hne.
Qed.

Lemma app_keeps (h h' : list row) (a : addr) (key : string) :
  is_Some (getProp h a key) → is_Some (getProp (h ++ h') a key).
Proof. intros Hsome. rewrite getProp_app_l; [done|by eapply getProp_lt]. Qed.

Section Growth.

Variable shasum stripNamespacesFromPath : string → string.
Variable table : string.
Variable sub : submission.
Variable opts : options.

(** What one open tag does to the result and to the size of the store. *)
Lemma onopentag_growth (s s' : state) (fullname : string) :
  onopentag shasum stripNamespacesFromPath table sub s fullname = Some s' →
  (result s' = result s
   ∧ (length (heap s') = length (heap s) ∨ length (heap s') = S (length (heap s))))
  ∨ (result s' = result s ++ [length (heap s)] ∧ length (heap s') = S (length (heap s))).
Proof.
  unfold onopentag, openRepeat. intros Hopen.
  repeat (case_match || simplify_option_eq); cbn;
    rewrite ?length_setProp, ?length_app, ?length_setProp; cbn;
    first [ left; split; [reflexivity|]; first [left; reflexivity|right; lia]
          | right; split; [reflexivity|lia] ].
Qed.

Lemma ontext_growth (s s' : state) (text : string) :
  ontext table opts s text = Some s' →
  result s' = result s ∧ length (heap s') = length (heap s).
Proof.
  unfold ontext. intros Htext.
  repeat (case_match || simplify_option_eq); cbn; by rewrite ?length_setProp.
Qed.

Lemma onopentag_keeps (s s' : state) (fullname : string) (a : addr) (key : string) :
  onopentag shasum stripNamespacesFromPath table sub s fullname = Some s' →
  is_Some (getProp (heap s) a key) → is_Some (getProp (heap s') a key).
Proof.
  unfold onopentag, openRepeat. intros Hopen Hsome.
  repeat (case_match || simplify_option_eq); cbn;
    repeat (apply setProp_keeps || apply app_keeps); done.
Qed.

Lemma ontext_keeps (s s' : state) (text : string) (a : addr) (key : string) :
  ontext table opts s text = Some s' →
  is_Some (getProp (heap s) a key) → is_Some (getProp (heap s') a key).
Proof.
  unfold ontext. intros Htext Hsome.
  repeat (case_match || simplify_option_eq); cbn;
    repeat (apply setProp_keeps || apply app_keeps); done.
Qed.

(** A relation between states that holds across every callback holds across
    every run of events. *)
Lemma write_related (R : state → state → Prop) :
  (∀ s, R s s) → (∀ s t u, R s t → R t u → R s u) →
  (∀ s s' fullname,
     onopentag shasum stripNamespacesFromPath table sub s fullname = Some s' → R s s') →
  (∀ s s' text, ontext table opts s text = Some s' → R s s') →
  (∀ s name', R s (onclosetag s name')) →
  ∀ s events s',
    write shasum stripNamespacesFromPath table sub opts (Pending s) events = Pending s'
    ∨ write shasum stripNamespacesFromPath table sub opts (Pending s) events = Resolved s' →
    R s s'.
Proof.
  intros Hrefl Htrans Hopen Htext Hclose s events. revert s.
  induction events as [|e events IH]; intros s s'.
  { intros [[= <-]|[=]]. apply Hrefl. }
  rewrite write_cons. destruct e as [fullname|text|name']; cbn [handle].
  - destruct (onopentag _ _ _ _ _ _) as [s1|] eqn:Hs1.
    + intros Hrun. eapply Htrans; [by eapply Hopen|by apply IH].
    + rewrite write_Rejected. by intros [|].
  - destruct (ontext _ _ _ _) as [s1|] eqn:Hs1.
    + intros Hrun. eapply Htrans; [by eapply Htext|by apply IH].
    + rewrite write_Rejected. by intros [|].
  - case_decide.
    + rewrite write_Resolved. intros [[=]|[= <-]]. apply Hclose.
    + intros Hrun. eapply Htrans; [apply Hclose|by apply IH].
Qed.

Lemma write_growth (s s' : state) (events : list event) :
  write shasum stripNamespacesFromPath table sub opts (Pending s) events = Pending s'
  ∨ write shasum stripNamespacesFromPath table sub opts (Pending s) events = Resolved s' →
  ∃ new,
    result s' = result s ++ new
    ∧ (length (heap s) ≤ length (heap s'))%nat
    ∧ Forall (λ a, (length (heap s) ≤ a < length (heap s'))%nat) new
    ∧ NoDup new.
Proof.
  apply (write_related (λ s s', ∃ new,
    result s' = result s ++ new
    ∧ (length (heap s) ≤ length (heap s'))%nat
    ∧ Forall (λ a, (length (heap s) ≤ a < length (heap s'))%nat) new
    ∧ NoDup new)).
  - intros t. exists []. rewrite app_nil_r. repeat split; [lia|constructor|constructor].
  - intros t u v (new1 & Hres1 & Hlen1 & Hnew1 & Hdup1) (new2 & Hres2 & Hlen2 & Hnew2 & Hdup2).
    exists (new1 ++ new2). rewrite Hres2, Hres1, app_assoc. repeat split; [lia| |].
    + apply Forall_app. split; (eapply Forall_impl; [done|]); cbn; intros; lia.
    + apply NoDup_app. split; [done|]. split; [|done].
      intros a Ha1 Ha2. rewrite Forall_forall in Hnew1, Hnew2.
      specialize (Hnew1 a Ha1). specialize (Hnew2 a Ha2). lia.
  - intros t t' fullname Hopen.
    destruct (onopentag_growth _ _ _ Hopen) as [[Hres Hlen]|[Hres Hlen]].
    + exists []. rewrite app_nil_r. repeat split; [done|lia|constructor|constructor].
    + exists [length (heap t)]. repeat split; [done|lia| |apply NoDup_singleton].
      constructor; [lia|constructor].
  - intros t t' text Htext. apply ontext_growth in Htext as [Hres Hlen].
    exists []. rewrite app_nil_r. repeat split; [done|lia|constructor|constructor].
  - intros t name'. exists []. rewrite app_nil_r. cbn.
    repeat split; [lia|constructor|constructor].
Qed.

(** X7. No callback deletes a property or a row: what a row holds under a key
    may be replaced, and is never removed. *)
Theorem properties_are_never_removed (s s' : state) (events : list event)
    (a : addr) (key : string) :
  write shasum stripNamespacesFromPath table sub opts (Pending s) events = Pending s'
  ∨ write shasum stripNamespacesFromPath table sub opts (Pending s) events = Resolved s' →
  is_Some (getProp (heap s) a key) → is_Some (getProp (heap s') a key).
Proof.
  apply (write_related (λ s s',
    is_Some (getProp (heap s) a key) → is_Some (getProp (heap s') a key))).
  - done.
  - intros t u v Htu Huv Ht. by apply Huv, Htu.
  - intros t t' fullname Hopen. by eapply onopentag_keeps.
  - intros t t' text Htext. by eapply ontext_keeps.
  - done.
Qed.


Lemma write_ids (s s' : state) (events : list event) :
  write shasum stripNamespacesFromPath table sub opts (Pending s) events = Pending s'
  ∨ write shasum stripNamespacesFromPath table sub opts (Pending s) events = Resolved s' →
  (∀ a, (a < length (heap s))%nat → is_Some (getProp (heap s) a "__id")) →
  ∀ a, (a < length (heap s'))%nat → is_Some (getProp (heap s') a "__id").
Proof.
  apply (write_related (λ s s',
    (∀ a, (a < length (heap s))%nat → is_Some (getProp (heap s) a "__id")) →
    ∀ a, (a < length (heap s'))%nat → is_Some (getProp (heap s') a "__id"))).
  - done.
  - intros t u v Htu Huv Ht. by apply Huv, Htu.
  - intros t t' fullname Hopen Ht a Ha.
    destruct (decide (a < length (heap t))%nat) as [Hold|Hnew].
    { eapply onopentag_keeps; [done|]. by apply Ht. }
    assert (length (heap t') = S (length (heap t))) as Hgrew.
    { destruct (onopentag_growth _ _ _ Hopen) as [[_ [?|?]]|[_ ?]]; lia. }
    destruct (onopentag_creates_row _ _ _ _ _ _ _ Hopen Hgrew) as (anc & _ & Hid).
    assert (a = length (heap t)) as -> by lia. by rewrite Hid.
  - intros t t' text Htext Ht a Ha. eapply ontext_keeps; [done|]. apply Ht.
    apply ontext_growth in Htext as [_ Hlen]. lia.
  - done.
Qed.

Lemma rows_at_valid_addresses (h : list row) (l : list addr) :
  Forall (λ a, (a < length h)%nat) l →
  (∀ a, (a < length h)%nat → is_Some (getProp h a "__id")) →
  length (omap (λ a, h !! a) l) = length l
  ∧ Forall (λ r : row, is_Some (r !! "__id")) (omap (λ a, h !! a) l).
Proof.
  intros Hvalid Hids. induction Hvalid as [|a l Ha _ [IHlen IHids]]; [by split|].
  cbn. specialize (Hids a Ha). unfold getProp in Hids.
  destruct (h !! a) as [r|]; [|by destruct Hids]. cbn in *.
  split; [by rewrite IHlen|by constructor].
Qed.

(** X9. The rows that a conversion has gathered, at any point and when it is
    resolved: no row is in the result twice, every entry of the result is a
    row of the store, and every row holds an [__id]. *)
Theorem emitted_rows_are_distinct_and_have_ids (fields : gmap string field)
    (events : list event) (s : state) :
  write shasum stripNamespacesFromPath table sub opts
    (Pending (initial fields table sub)) events = Pending s
  ∨ write shasum stripNamespacesFromPath table sub opts
      (Pending (initial fields table sub)) events = Resolved s →
  NoDup (result s)
  ∧ length (rowsOf s) = length (result s)
  ∧ Forall (λ r : row, is_Some (r !! "__id")) (rowsOf s).
Proof.
  intros Hrun.
  destruct (write_growth _ _ _ Hrun) as (new & Hres & Hlen & Hnew & Hdup).
  pose proof (write_ids _ _ _ Hrun) as Hids.
  cbn [initial heap result length] in *.
  assert (Forall (λ a, (a < length (heap s))%nat) (result s)) as Hvalid.
  { rewrite Hres. apply Forall_app. split.
    - case_decide; repeat constructor. lia.
    - eapply Forall_impl; [done|]. cbn. intros; lia. }
  split.
  { rewrite Hres. apply NoDup_app. split; [case_decide; repeat constructor; set_solver|].
    split; [|done]. intros a Ha Hin. rewrite Forall_forall in Hnew. specialize (Hnew a Hin).
    case_decide; [|by apply elem_of_nil in Ha]. apply list_elem_of_singleton in Ha. lia. }
  apply rows_at_valid_addresses; [done|]. apply Hids.
  intros a Ha. assert (a = 0%nat) as -> by lia. by eexists.
Qed.

End Growth.

(** ** Repeats on the row of their parent *)

Lemma join_app (sep : string) (xs ys : list string) :
  xs ≠ [] → ys ≠ [] → Js.join sep (xs ++ ys) = Js.join sep xs +:+ sep +:+ Js.join sep ys.
Proof.
  intros Hxs Hys. destruct ys as [|y ys]; [done|]. clear Hys.
  induction xs as [|x xs IH]; [done|]. clear Hxs.
  destruct xs as [|x' xs].
  - cbn [app]. by rewrite join_cons.
  - cbn [app]. rewrite join_cons. rewrite (join_cons sep x). cbn [joinTail app] in *.
    rewrite IH by done. by rewrite !string_app_assoc.
Qed.

Lemma contextFrom_snoc (fs : list field) (f : field) (its : list iteration) :
  length its = length fs →
  contextFrom 0 (fs ++ [f]) its = zip fs its ++ [(f, IUndefined)].
Proof.
  intros Hlen. unfold contextFrom. rewrite imap_app. cbn. f_equal.
  - apply list_eq. intros i. rewrite list_lookup_imap, lookup_zip_with.
    destruct (fs !! i) as [x|] eqn:Hx; [|done]. cbn.
    apply lookup_lt_Some in Hx. rewrite <- Hlen in Hx.
    destruct (lookup_lt_is_Some_2 its i Hx) as [y ->]. done.
  - rewrite Nat.add_0_r, <- Hlen. by rewrite lookup_ge_None_2.
Qed.

Section ParentRow.

Variable shasum stripNamespacesFromPath : string → string.
Variable table : string.
Variable sub : submission.
Variable opts : options.
Variable fields : gmap string field.

(** The link of a repeat is the link of the place where it is opened,
    followed by the bare name of the repeat. *)
Lemma linkPath_snoc (anc : list (field * iteration)) (f : field) :
  anc ≠ [] →
  linkPath shasum (anc ++ [(f, IUndefined)]) = linkPath shasum anc +:+ "/" +:+ name f.
Proof.
  intros Hanc. unfold linkPath. rewrite imap_app. cbn [imap].
  assert (imap (linkStep shasum (anc ++ [(f, IUndefined)])) anc = imap (linkStep shasum anc) anc)
    as ->.
  { apply imap_ext. intros i p Hp. unfold linkStep. apply lookup_lt_Some in Hp.
    by rewrite take_app_le by lia. }
  rewrite join_app; [done| |done]. by destruct anc.
Qed.

(** X10. Every repeat that is opened where the schema has it gets a navigation
    link, outside the table, at the table and inside it alike: the row on top
    of the data stack takes it under the name of the repeat, after the names
    of the groups around it, followed by [@odata.navigationLink], and the link
    is the link of the place where the repeat is opened followed by the bare
    name of the repeat. *)
Theorem repeat_open_writes_navigation_link (events : list event) (s s' : state) (fullname : string)
    (fieldPtr f : field) :
  reached shasum stripNamespacesFromPath table sub opts fields events s →
  droppedWrapper s = true →
  mjoin (ptr (fieldStack s)) = Some fieldPtr →
  children fieldPtr !! stripNamespacesFromPath fullname = Some f →
  type f = Repeat →
  onopentag shasum stripNamespacesFromPath table sub s fullname = Some s' →
  ∃ a, mjoin (ptr (dataStack s)) = Some a
       ∧ getProp (heap s') a
           (nsTarget (mjoin (ptr (nsStack s))) (stripNamespacesFromPath fullname)
            +:+ "@odata.navigationLink")
         = Some (VStr (linkPath shasum (ancestry s) +:+ "/" +:+ name f)).
Proof.
  intros Hreached Hdropped Htop Hchild Htype. unfold onopentag.
  rewrite Hdropped, Htop. cbn [negb mbind option_bind]. rewrite Hchild, Htype.
  pose proof (reached_consistent _ _ _ _ _ _ _ _ Hreached) as Hs.
  destruct (consistent_top fields s fieldPtr Hs Htop)
    as (fs & ds & a & Hf & _ & Hd & Hlen & Hda & _ & Ha & Hi & Hn).
  set (fs0 := rootField fields :: fs) in *.
  rewrite (openRepeat_cases shasum table sub s fs0 a _ f Hf Hda) by (unfold fs0; cbn; lia).
  intros Hopen. exists a. split; [done|].
  set (key := nsTarget _ _ +:+ _).
  assert (getProp (linked shasum s fs0 a (stripNamespacesFromPath fullname) f) a key
          = Some (VStr (linkPath shasum (ancestry s) +:+ "/" +:+ name f))) as Hlinked.
  { unfold linked. fold key. rewrite getProp_setProp_eq by done. do 2 f_equal.
    unfold ancestry. rewrite Hf, omap_id_Some, contextFrom_snoc by (unfold fs0; cbn; lia).
    apply linkPath_snoc. unfold fs0. by destruct (iterationStack s). }
  assert (∀ bags atTable,
    getProp (heap (expanded shasum sub s fs0 a (stripNamespacesFromPath fullname) f bags atTable))
      a key = Some (VStr (linkPath shasum (ancestry s) +:+ "/" +:+ name f))) as Hexpanded.
  { intros bags atTable. cbn [heap expanded].
    rewrite getProp_app_l by (by rewrite length_setProp, length_linked).
    rewrite getProp_setProp_ne; [done|]. right. intros Heq. by eapply linkKey_ne. }
  repeat case_match; simplify_eq; done.
Qed.

(** X11. A repeat that is opened outside the table or at it makes a new row,
    the next object of the store, and appends it to the array that the row on
    top of the data stack holds under the tag name of the repeat, making that
    array when there is none; the iteration value that is pushed is the number
    of instances that the array held before, and the new row is pushed as the
    row that the content of the element is written to. *)
Theorem repeat_instance_is_appended_to_its_array (events : list event) (s s' : state) (fullname : string)
    (fieldPtr f : field) :
  reached shasum stripNamespacesFromPath table sub opts fields events s →
  droppedWrapper s = true →
  mjoin (ptr (fieldStack s)) = Some fieldPtr →
  children fieldPtr !! stripNamespacesFromPath fullname = Some f →
  type f = Repeat →
  getBranchState (fieldStack s ++ [Some f]) table ≠ Some Inside →
  onopentag shasum stripNamespacesFromPath table sub s fullname = Some s' →
  ∃ a bags,
    mjoin (ptr (dataStack s)) = Some a
    ∧ (getProp (heap s) a (stripNamespacesFromPath fullname) = Some (VRows bags)
       ∨ getProp (heap s) a (stripNamespacesFromPath fullname) = None ∧ bags = [])
    ∧ getProp (heap s') a (stripNamespacesFromPath fullname)
      = Some (VRows (bags ++ [length (heap s)]))
    ∧ length (heap s') = S (length (heap s))
    ∧ fieldStack s' = fieldStack s ++ [Some f]
    ∧ dataStack s' = dataStack s ++ [Some (length (heap s))]
    ∧ iterationStack s' = iterationStack s ++ [INum (length bags)]
    ∧ nsStack s' = nsStack s ++ [None].
Proof.
  intros Hreached Hdropped Htop Hchild Htype Hstate. unfold onopentag.
  rewrite Hdropped, Htop. cbn [negb mbind option_bind]. rewrite Hchild, Htype.
  pose proof (reached_consistent _ _ _ _ _ _ _ _ Hreached) as Hs.
  destruct (consistent_top fields s fieldPtr Hs Htop)
    as (fs & ds & a & Hf & _ & Hd & Hlen & Hda & _ & Ha & Hi & Hn).
  set (fs0 := rootField fields :: fs) in *.
  rewrite Hf, <- fmap_snoc, getBranchState_Some in Hstate.
  rewrite (openRepeat_cases shasum table sub s fs0 a _ f Hf Hda) by (unfold fs0; cbn; lia).
  rewrite getProp_linked by (symmetry; apply linkKey_ne).
  assert (∀ bags atTable,
    getProp (heap (expanded shasum sub s fs0 a (stripNamespacesFromPath fullname) f bags atTable))
      a (stripNamespacesFromPath fullname) = Some (VRows (bags ++ [length (heap s)]))) as Harray.
  { intros bags atTable. cbn [heap expanded].
    rewrite getProp_app_l by (by rewrite length_setProp, length_linked).
    apply getProp_setProp_eq. by rewrite length_linked. }
  intros Hopen. exists a.
  destruct (getProp (heap s) a (stripNamespacesFromPath fullname)) as [v|] eqn:Hv.
  - assert (∃ bags atTable, v = VRows bags
        ∧ s' = expanded shasum sub s fs0 a (stripNamespacesFromPath fullname) f bags atTable)
      as (bags & atTable & -> & ->).
    { repeat case_match; simplify_eq; by eexists _, _. }
    exists bags. rewrite Harray, length_expanded_heap. repeat split; try done. by left.
  - assert (∃ atTable,
        s' = expanded shasum sub s fs0 a (stripNamespacesFromPath fullname) f [] atTable)
      as (atTable & ->).
    { repeat case_match; simplify_eq; by eexists. }
    exists []. rewrite Harray, length_expanded_heap. repeat split; try done. by right.
Qed.

End ParentRow.

(** ** Groups and the keys of their fields *)

Lemma nsTarget_nsOf (names : list string) (name' : string) :
  nsTarget (nsOf names) name' = Js.join "__" (names ++ [name']).
Proof.
  destruct names as [|n names]; [done|]. cbn [nsOf nsTarget].
  by rewrite (join_app "__" (n :: names) [name']).
Qed.

Lemma nsNext_groups (acc : list string) (f : field) :
  nsNext (nsOf acc) (Some f)
  = nsOf (match type f with
          | Structure => acc ++ [name f]
          | Repeat => []
          | _ => acc
          end).
Proof.
  unfold nsNext. destruct (type f); try done.
  rewrite nsTarget_nsOf. by destruct acc.
Qed.

Lemma groupsFrom_snoc (acc : list string) (fs : list field) (f : field) :
  groupsFrom acc (fs ++ [f])
  = match type f with
    | Structure => groupsFrom acc fs ++ [name f]
    | Repeat => []
    | _ => groupsFrom acc fs
    end.
Proof. revert acc. induction fs as [|g fs IH]; intros acc; [done|]. cbn. apply IH. Qed.

Lemma nsAlong_inv (fieldStack : list (option field)) (nsStack : list (option string))
    (f : option field) (ns : option string) :
  nsAlong (fieldStack ++ [f]) (nsStack ++ [ns]) →
  nsAlong fieldStack nsStack ∧ ns = nsNext (mjoin (ptr nsStack)) f.
Proof.
  inversion 1 as [Hf|fieldStack' nsStack' f' Hrel Hf Hn].
  - by destruct fieldStack.
  - apply app_inj_tail in Hf as [-> ->]. apply app_inj_tail in Hn as [-> ->]. done.
Qed.

Lemma nsAlong_length (fieldStack : list (option field)) (nsStack : list (option string)) :
  nsAlong fieldStack nsStack → length nsStack = length fieldStack.
Proof. induction 1; [done|]. rewrite !length_app. cbn. lia. Qed.

(** On a stack without null fields the namespace on top is made of the names
    of the groups. *)
Lemma nsAlong_top (fs : list field) (nsStack : list (option string)) :
  nsAlong (Some <$> fs) nsStack → mjoin (ptr nsStack) = nsOf (groups fs).
Proof.
  revert nsStack. induction fs as [|f fs IH] using rev_ind; intros nsStack Hrel.
  - apply nsAlong_length in Hrel. by destruct nsStack.
  - destruct nsStack as [|ns nsStack _] using rev_ind.
    { apply nsAlong_length in Hrel. rewrite length_fmap, length_app in Hrel. cbn in Hrel. lia. }
    rewrite fmap_app in Hrel. cbn [fmap list_fmap] in Hrel.
    apply nsAlong_inv in Hrel as [Hrel ->]. unfold ptr at 1. rewrite last_snoc. cbn [mjoin option_join].
    rewrite (IH _ Hrel), nsNext_groups. unfold groups. by rewrite groupsFrom_snoc.
Qed.

Section Groups.

Variable shasum stripNamespacesFromPath : string → string.
Variable table : string.
Variable sub : submission.
Variable opts : options.
Variable fields : gmap string field.

(** What an open tag pushes on the field stack and on the namespace stack. *)
Lemma onopentag_ns (s s' : state) (fullname : string) :
  droppedWrapper s = true →
  onopentag shasum stripNamespacesFromPath table sub s fullname = Some s' →
  ∃ f, fieldStack s' = fieldStack s ++ [f]
       ∧ nsStack s' = nsStack s ++ [nsNext (mjoin (ptr (nsStack s))) f].
Proof.
  unfold onopentag. intros -> Hopen. cbn [negb] in Hopen.
  destruct (mjoin (ptr (fieldStack s)) ≫= _) as [f|].
  2:{ injection Hopen as <-. by exists None. }
  destruct (type f) eqn:Htype.
  2:{ unfold openRepeat in Hopen.
      repeat (case_match || simplify_option_eq); cbn; rewrite ?pop_snoc;
        first [by exists None|exists (Some f); cbn; by rewrite Htype]. }
  all: injection Hopen as <-; exists (Some f); cbn; rewrite Htype; split; [done|].
  all: unfold pushPtr; by destruct (ptr (nsStack s)).
Qed.

Lemma reached_ns (events : list event) (s : state) :
  reached shasum stripNamespacesFromPath table sub opts fields events s →
  nsAlong (fieldStack s) (nsStack s).
Proof.
  intros Hreached.
  assert (nsAlong (fieldStack (initial fields table sub)) (nsStack (initial fields table sub)))
    as Hinitial.
  { apply (nsAlong_snoc [] [] (Some (Field "Submissions" Other fields))). constructor. }
  revert Hinitial. unfold reached in Hreached.
  apply (write_related shasum stripNamespacesFromPath table sub opts
    (λ s s', nsAlong (fieldStack s) (nsStack s) → nsAlong (fieldStack s') (nsStack s')))
    with (events := events); [| | | | |by left].
  - done.
  - intros t u v Htu Huv Ht. by apply Huv, Htu.
  - intros t t' fullname Hopen Ht. destruct (droppedWrapper t) eqn:Hdropped.
    + destruct (onopentag_ns _ _ _ Hdropped Hopen) as (f & -> & ->). by constructor.
    + unfold onopentag in Hopen. rewrite Hdropped in Hopen. by injection Hopen as <-.
  - intros t t' text Htext Ht. unfold ontext in Htext.
    repeat (case_match || simplify_option_eq); done.
  - intros t name' Ht. cbn. destruct Ht as [|fieldStack nsStack f Ht]; [constructor|].
    by rewrite !pop_snoc.
Qed.

(** X12. A text inside the table is written on the row on top of the data
    stack under the name of its field after the names of the groups around the
    field, joined by two underscores; the groups are the structures on the
    path of the field that come after its last repeat. A group or a repeat
    takes no text. *)
Theorem text_is_written_under_the_group_path (events : list event) (s : state) (text : string) (fieldPtr : field) :
  reached shasum stripNamespacesFromPath table sub opts fields events s →
  mjoin (ptr (fieldStack s)) = Some fieldPtr →
  getBranchState (fieldStack s) table = Some Inside →
  ∃ (fs : list field) (a : addr),
    fieldStack s = Some <$> fs ++ [fieldPtr]
    ∧ mjoin (ptr (dataStack s)) = Some a
    ∧ ontext table opts s text
      = Some (match coerce opts (type fieldPtr) text with
              | Some v =>
                  withHeap s
                    (setProp (heap s) a (Js.join "__" (groups fs ++ [name fieldPtr])) v)
              | None => s
              end).
Proof.
  intros Hreached Htop Hinside.
  pose proof (reached_consistent _ _ _ _ _ _ _ _ Hreached) as Hs.
  pose proof (reached_ns _ _ Hreached) as Hns.
  destruct (consistent_top fields s fieldPtr Hs Htop)
    as (fs & ds & a & Hf & Hlast & Hd & Hlen & Hda & _ & Ha & Hi & Hn).
  apply last_Some in Hlast as [below Hbelow].
  exists below, a. rewrite Hf, Hbelow. split; [done|]. split; [done|].
  rewrite (ontext_inside table opts s text fieldPtr a Htop Hinside Hda).
  destruct (coerce opts (type fieldPtr) text) as [v|] eqn:Hv; [|done].
  rewrite Hf, Hbelow in Hns. rewrite (nsAlong_top _ _ Hns).
  unfold groups. rewrite groupsFrom_snoc.
  destruct (type fieldPtr); try done; by rewrite <- nsTarget_nsOf.
Qed.

End Groups.

(** ** Rows that are handed to the caller *)

Lemma omap_id_nulls {A} (l : list A) (k : nat) :
  omap id ((Some <$> l) ++ replicate k None) = l.
Proof.
  rewrite omap_app, omap_id_Some.
  assert (omap id (replicate k (@None A)) = []) as ->; [|apply app_nil_r].
  induction k as [|k IH]; [done|]. exact IH.
Qed.

Lemma omap_id_snoc_Some {A} (l : list (option A)) (x : A) :
  omap id (l ++ [Some x]) = omap id l ++ [x].
Proof. by rewrite omap_app. Qed.

Lemma omap_id_snoc_None {A} (l : list (option A)) :
  omap id (l ++ [None]) = omap id l.
Proof. rewrite omap_app. apply app_nil_r. Qed.

Lemma startsWith_below (fs gs : list field) (table : string) :
  fs ≠ [] → Js.startsWith (impliedTableName fs) table = true →
  Js.startsWith (impliedTableName (fs ++ gs)) table = true.
Proof.
  intros Hfs Hprefix. destruct gs as [|g gs]; [by rewrite app_nil_r|].
  apply startsWith_spec in Hprefix as [rest Hrest]. apply startsWith_spec.
  rewrite impliedTableName_app, Hrest by done.
  exists (rest +:+ "." +:+ impliedTableName (g :: gs)). by rewrite !string_app_assoc.
Qed.

Lemma underTable_push (table : string) (fs : list field) (ds res : list addr)
    (f : field) (a : addr) :
  length ds = length fs →
  underTable table fs ds res →
  (a ∈ res → Js.startsWith (impliedTableName (fs ++ [f])) table = true) →
  underTable table (fs ++ [f]) (ds ++ [a]) res.
Proof.
  intros Hlen Hunder Hnew i b Hb Hin.
  destruct (decide (i < length ds)%nat) as [Hi|Hi].
  - rewrite lookup_app_l in Hb by done. rewrite take_app_le by lia. by eapply Hunder.
  - rewrite lookup_app_r in Hb by lia.
    destruct (i - length ds)%nat as [|j] eqn:Hj; [|done]. injection Hb as <-.
    assert (i = length fs) as -> by lia.
    rewrite take_ge by (rewrite length_app; cbn; lia). by apply Hnew.
Qed.

Lemma underTable_pop (table : string) (fs : list field) (ds res : list addr)
    (f : field) (a : addr) :
  length ds = length fs →
  underTable table (fs ++ [f]) (ds ++ [a]) res → underTable table fs ds res.
Proof.
  intros Hlen Hunder i b Hb Hin. pose proof (lookup_lt_Some _ _ _ Hb) as Hi.
  rewrite <- (take_app_le fs [f]) by lia. apply (Hunder i b); [|done].
  by rewrite lookup_app_l.
Qed.

Lemma flat_setProp (h : list row) (a b : addr) (key : string) (v : value) :
  (∀ bags, v ≠ VRows bags) → flat h b → flat (setProp h a key v) b.
Proof.
  intros Hv Hflat key' bags Hget.
  destruct (decide (a = b ∧ key = key')) as [[-> ->]|Hne].
  - destruct (decide (b < length h)%nat) as [Hb|Hb].
    + rewrite getProp_setProp_eq in Hget by done. injection Hget as ->. by eapply Hv.
    + unfold getProp in Hget. rewrite lookup_ge_None_2 in Hget; [done|].
      rewrite length_setProp. lia.
  - rewrite getProp_setProp_ne in Hget; [by eapply Hflat|].
    destruct (decide (a = b)) as [->|]; [right|by left]. intros ->. by apply Hne.
Qed.

Lemma flat_setProp_other (h : list row) (a b : addr) (key : string) (v : value) :
  a ≠ b → flat h b → flat (setProp h a key v) b.
Proof.
  intros Hne Hflat key' bags. rewrite getProp_setProp_ne by (by left). apply Hflat.
Qed.

Lemma flat_app (h h' : list row) (a : addr) :
  (a < length h)%nat → flat h a → flat (h ++ h') a.
Proof. intros Ha Hflat key bags. rewrite getProp_app_l by done. apply Hflat. Qed.

Lemma coerce_not_rows (opts : options) (t : ftype) (text : string) (v : value) :
  coerce opts t text = Some v → ∀ bags, v ≠ VRows bags.
Proof.
  unfold coerce, geopoint. intros Hv bags ->.
  repeat (case_match || simplify_option_eq); done.
Qed.

Lemma flat_newRow (shasum : string → string) (sub : submission) (s : state) (fs : list field)
    (f : field) (position : nat) (atTable : bool) (h : list row) (n : nat) :
  length h = n → flat (h ++ [newRow shasum sub s fs f position atTable]) n.
Proof.
  intros <- key bags. unfold getProp. rewrite lookup_app_r by lia. rewrite Nat.sub_diag. cbn.
  unfold newRow, parentRef. destruct atTable.
  - destruct (cutAtRepeat _); cbn [fst snd].
    all: rewrite lookup_insert_Some, lookup_singleton_Some; by intros [[_ ?]|[_ [_ ?]]].
  - rewrite lookup_singleton_Some. by intros [_ ?].
Qed.

Section Emitted.

Variable shasum stripNamespacesFromPath : string → string.
Variable table : string.
Variable sub : submission.
Variable opts : options.
Variable fields : gmap string field.

Lemma placed_null (s s' : state) :
  placed table s →
  result s' = result s → fieldStack s' = fieldStack s ++ [None] →
  dataStack s' = dataStack s ++ [None] →
  length (heap s') = length (heap s) →
  (∀ a, a ∈ result s → flat (heap s) a → flat (heap s') a) →
  placed table s'.
Proof.
  intros (Hvalid & Hunder & Hflat) Hres Hf Hd Hlen Hkeep. unfold placed.
  rewrite Hres, Hf, Hd, Hlen, !omap_id_snoc_None. repeat split; [done..|].
  intros a Ha. by apply Hkeep, Hflat.
Qed.

Lemma onopentag_placed (s s' : state) (fullname : string) :
  consistent fields s → placed table s →
  onopentag shasum stripNamespacesFromPath table sub s fullname = Some s' →
  placed table s'.
Proof.
  intros Hs Hplaced. unfold onopentag. destruct (droppedWrapper s); cbn [negb].
  2:{ intros [= <-]. exact Hplaced. }
  destruct (mjoin (ptr (fieldStack s))) as [fieldPtr|] eqn:Htop; cbn [mbind option_bind].
  2:{ intros [= <-]. by apply (placed_null s). }
  destruct (children fieldPtr !! _) as [f|]; [|intros [= <-]; by apply (placed_null s)].
  destruct (consistent_top fields s fieldPtr Hs Htop)
    as (fs & ds & a & Hf & _ & Hd & Hlen & Hda & Hds & Ha & Hi & Hn).
  set (fs0 := rootField fields :: fs) in *.
  assert (length ds = length fs0) as Hlen0 by done.
  assert (∃ below, ds = below ++ [a]) as [below Hbelow].
  { rewrite Hd in Hda. unfold ptr in Hda. rewrite fmap_last in Hda.
    destruct (last ds) as [a'|] eqn:Hlast; [|done]. injection Hda as ->.
    by apply last_Some. }
  pose proof Hplaced as (Hvalid & Hunder & Hflat).
  rewrite Hf, Hd, !omap_id_Some in Hunder.
  assert (a ∈ result s → Js.startsWith (impliedTableName fs0) table = true) as Htable.
  { intros Hin. rewrite <- (take_ge fs0 (S (length below))).
    - apply (Hunder (length below) a); [|done]. rewrite Hbelow. apply list_lookup_middle. done.
    - rewrite <- Hlen0, Hbelow, length_app. cbn. lia. }
  assert (∀ i ns dropped, placed table
            (State (result s) (fieldStack s ++ [Some f]) (pushPtr None (dataStack s))
                   i ns dropped (heap s))) as Hscalar.
  { intros i ns dropped. unfold placed. cbn [result fieldStack dataStack heap].
    rewrite (pushPtr_top _ a Hda), !omap_id_snoc_Some, Hf, Hd, !omap_id_Some.
    repeat split; [done| |done].
    apply underTable_push; [done..|]. intros Hin. apply startsWith_below; [done|]. by apply Htable. }
  destruct (type f); try (intros [= <-]; apply Hscalar).
  rewrite (openRepeat_cases shasum table sub s fs0 a _ f Hf Hda) by (unfold fs0; cbn; lia).
  assert (∀ b, b ∈ result s →
            flat (linked shasum s fs0 a (stripNamespacesFromPath fullname) f) b) as Hlinked.
  { intros b Hb. apply flat_setProp; [done|]. by apply Hflat. }
  assert (∀ bags atTable,
            (atTable = true → impliedTableName (fs0 ++ [f]) = table) →
            getBranchState (Some <$> fs0 ++ [f]) table ≠ Some Inside →
            placed table
              (expanded shasum sub s fs0 a (stripNamespacesFromPath fullname) f bags atTable))
    as Hexpanded.
  { intros bags atTable Hat Hstate.
    assert (a ∉ result s) as Hnotin.
    { intros Hin. apply Hstate, inside_below; [done..|]. by apply Htable. }
    assert (length (heap s) ∉ result s) as Hfresh.
    { intros Hin. rewrite Forall_forall in Hvalid. specialize (Hvalid _ Hin). lia. }
    unfold placed. rewrite length_expanded_heap. cbn [result fieldStack dataStack expanded].
    rewrite !omap_id_snoc_Some, Hf, Hd, !omap_id_Some. repeat split.
    - destruct atTable.
      + apply Forall_app. split; [|repeat constructor; lia].
        eapply Forall_impl; [done|]. cbn. intros; lia.
      + eapply Forall_impl; [done|]. cbn. intros; lia.
    - apply underTable_push; [done| |].
      + intros i b Hb Hin. apply (Hunder i b Hb).
        destruct atTable; [|done]. apply elem_of_app in Hin as [Hin|Hin]; [done|].
        apply list_elem_of_singleton in Hin. subst b.
        apply list_elem_of_lookup_2 in Hb. rewrite Forall_forall in Hds.
        specialize (Hds _ Hb). lia.
      + intros Hin. destruct atTable; [|done].
        apply startsWith_spec. exists EmptyString. by rewrite Hat, string_app_nil_r.
    - intros b Hb. cbn [heap expanded].
      assert (b ∈ result s ∨ b = length (heap s)) as [Hold | ->].
      { destruct atTable; [|by left]. apply elem_of_app in Hb as [Hb|Hb]; [by left|right].
        by apply list_elem_of_singleton in Hb. }
      + apply flat_app.
        * rewrite length_setProp, length_linked. rewrite Forall_forall in Hvalid.
          by apply Hvalid.
        * apply flat_setProp_other; [|by apply Hlinked].
          intros Heq. apply Hnotin. by rewrite Heq.
      + apply flat_newRow. by rewrite length_setProp, length_linked. }
  rewrite getBranchState_Some in Hexpanded.
  destruct (decide (impliedTableName (fs0 ++ [f]) = table)) as [Heq|Hne].
  - intros Hopen. repeat case_match; simplify_eq; by apply Hexpanded.
  - destruct (Js.startsWith (impliedTableName (fs0 ++ [f])) table) eqn:Hprefix.
    + intros [= <-]. apply (placed_null s); try done.
      * cbn. apply length_linked.
      * intros b Hb _. by apply Hlinked.
    + intros Hopen. repeat case_match; simplify_eq; by apply Hexpanded.
Qed.

Lemma ontext_placed (s s' : state) (text : string) :
  placed table s → ontext table opts s text = Some s' → placed table s'.
Proof.
  intros (Hvalid & Hunder & Hflat). unfold ontext. intros Htext.
  destruct (mjoin (ptr (fieldStack s))) as [fieldPtr|]; [|by simplify_eq].
  destruct (getBranchState _ _) as [branchState|]; [|done]. cbn [mbind option_bind] in Htext.
  case_decide; [|by simplify_eq].
  destruct (coerce _ _ _) as [v|] eqn:Hv; [|by simplify_eq].
  destruct (mjoin (ptr (dataStack s))) as [a|]; [|done]. injection Htext as <-.
  unfold placed. cbn. rewrite length_setProp. repeat split; [done..|].
  intros b Hb. apply flat_setProp; [by eapply coerce_not_rows|by apply Hflat].
Qed.

Lemma onclosetag_placed (s : state) (name' : string) :
  consistent fields s → length (fieldStack (onclosetag s name')) ≠ 0%nat →
  placed table s → placed table (onclosetag s name').
Proof.
  intros (fs & ds & k & Hf & Hd & Hlen & _) Hne (Hvalid & Hunder & Hflat).
  unfold placed. cbn [onclosetag result fieldStack dataStack heap] in *.
  repeat split; [done| |done].
  rewrite Hf, Hd in *. destruct k as [|k].
  - cbn [replicate] in *. rewrite !app_nil_r in *. rewrite omap_id_Some in Hunder.
    destruct fs as [|f fs _] using rev_ind; [done|].
    destruct ds as [|d ds _] using rev_ind; [done|].
    rewrite app_comm_cons, !fmap_app in *. cbn [fmap list_fmap] in *.
    rewrite !pop_snoc, !omap_id_Some. rewrite omap_id_snoc_Some, omap_id_Some in Hunder.
    rewrite !length_app in Hlen. cbn in Hlen.
    change (Some (rootField fields) :: (Some <$> fs)) with (Some <$> rootField fields :: fs).
    rewrite omap_id_Some.
    apply (underTable_pop _ _ _ _ f d); [cbn; lia|done].
  - rewrite !pop_replicate, !omap_id_nulls. by rewrite !omap_id_nulls in Hunder.
Qed.

Lemma initial_placed : placed table (initial fields table sub).
Proof.
  unfold placed, initial. cbn. repeat split.
  - case_decide; repeat constructor.
  - intros i a Hi Hin. destruct i as [|i]; [|done]. injection Hi as <-.
    case_decide as Htable; [|by apply elem_of_nil in Hin].
    rewrite Htable. by vm_compute.
  - intros a Ha key bags. case_decide; [|by apply elem_of_nil in Ha].
    apply list_elem_of_singleton in Ha. subst a. unfold getProp. cbn.
    rewrite lookup_singleton_Some. by intros [_ ?].
Qed.

Lemma reached_placed (events : list event) (s : state) :
  reached shasum stripNamespacesFromPath table sub opts fields events s → placed table s.
Proof.
  unfold reached. revert s. induction events as [|e events IH] using rev_ind; intros s.
  - intros [= <-]. apply initial_placed.
  - rewrite write_snoc.
    destruct (write _ _ _ _ _ _ events) as [s0| |] eqn:Hrun; [|done..].
    specialize (IH s0 eq_refl).
    pose proof (reached_consistent _ _ _ _ _ _ _ _ Hrun) as Hs0.
    destruct e as [fullname|text|name']; cbn [handle].
    + destruct (onopentag _ _ _ _ _ _) eqn:Hopen; [|done]. intros [= <-].
      by eapply onopentag_placed.
    + destruct (ontext _ _ _ _) eqn:Htext; [|done]. intros [= <-].
      by eapply ontext_placed.
    + case_decide; [done|]. intros [= <-]. by apply onclosetag_placed.
Qed.

(** A promise is resolved by a close tag, with the result and the store of
    the state that the tag finds. *)
Lemma write_Resolved_inv (s s' : state) (events : list event) :
  write shasum stripNamespacesFromPath table sub opts (Pending s) events = Resolved s' →
  ∃ pre name' post s0,
    events = pre ++ CloseTag name' :: post
    ∧ write shasum stripNamespacesFromPath table sub opts (Pending s) pre = Pending s0
    ∧ s' = onclosetag s0 name'.
Proof.
  revert s. induction events as [|e events IH]; intros s; [done|].
  rewrite write_cons.
  assert (∀ s1, handle shasum stripNamespacesFromPath table sub opts (Pending s) e = Pending s1 →
            write shasum stripNamespacesFromPath table sub opts (Pending s1) events = Resolved s' →
            ∃ pre name' post s0,
              e :: events = pre ++ CloseTag name' :: post
              ∧ write shasum stripNamespacesFromPath table sub opts (Pending s) pre = Pending s0
              ∧ s' = onclosetag s0 name') as Hnext.
  { intros s1 Hstep Hrun. destruct (IH s1 Hrun) as (pre & name' & post & s0 & -> & Hpre & ->).
    exists (e :: pre), name', post, s0. split; [done|]. split; [|done].
    by rewrite write_cons, Hstep. }
  destruct e as [fullname|text|name']; cbn [handle] in *.
  - destruct (onopentag _ _ _ _ _ _) as [s1|]; [by apply Hnext|by rewrite write_Rejected].
  - destruct (ontext _ _ _ _) as [s1|]; [by apply Hnext|by rewrite write_Rejected].
  - case_decide; [|by apply Hnext].
    rewrite write_Resolved. intros [= <-]. by exists [], name', events, s.
Qed.

(** X13. The rows that a conversion has gathered, at any point and when it
    is resolved, hold no array of rows: a repeat under a row of the table is
    not expanded into that row, at any depth, also for a table whose name is
    a prefix of the name of another. *)
Theorem emitted_rows_hold_no_subtables (events : list event) (s : state) :
  write shasum stripNamespacesFromPath table sub opts
    (Pending (initial fields table sub)) events = Pending s
  ∨ write shasum stripNamespacesFromPath table sub opts
      (Pending (initial fields table sub)) events = Resolved s →
  Forall (λ r : row, ∀ key bags, r !! key ≠ Some (VRows bags)) (rowsOf s).
Proof.
  intros Hrun.
  assert (∀ a, a ∈ result s → flat (heap s) a) as Hflat.
  { destruct Hrun as [Hrun|Hrun]; [by apply reached_placed in Hrun as (_ & _ & Hflat)|].
    apply write_Resolved_inv in Hrun as (pre & name' & post & s0 & _ & Hpre & ->).
    by apply reached_placed in Hpre as (_ & _ & Hflat). }
  unfold rowsOf. rewrite Forall_forall. intros r Hr.
  apply list_elem_of_omap in Hr as (a & Ha & Hrow). intros key bags Hkey.
  apply (Hflat a Ha key bags). unfold getProp. by rewrite Hrow.
Qed.

End Emitted.

(** ** The parent of a new row *)

Lemma cutAtRepeat_split (ancestors : list (field * iteration)) :
  ∃ parent rest,
    ancestors = parent ++ rest
    ∧ cutAtRepeat ancestors = parent
    ∧ Forall (λ p, type p.1 ≠ Repeat) rest
    ∧ match last parent with Some r => type r.1 = Repeat | None => True end.
Proof.
  induction ancestors as [|x ancestors IH] using rev_ind.
  { exists [], []. by repeat split. }
  destruct (decide (type x.1 = Repeat)) as [Hx|Hx].
  - exists (ancestors ++ [x]), []. rewrite app_nil_r, last_snoc.
    repeat split; [|done..]. by apply cutAtRepeat_nearest.
  - destruct IH as (parent & rest & -> & Hcut & Hrest & Hlast).
    exists parent, (rest ++ [x]). rewrite <- app_assoc.
    assert (Forall (λ p, type p.1 ≠ Repeat) (rest ++ [x])) as Hrest'.
    { apply Forall_app. split; [done|by constructor]. }
    repeat split; [|done..].
    destruct parent as [|r parent _] using rev_ind.
    + apply cutAtRepeat_none. done.
    + rewrite last_snoc in Hlast. rewrite <- app_assoc. cbn [app].
      by apply cutAtRepeat_nearest.
Qed.

(** X14. The loop that looks for the parent of a new row drops the entry of
    the row and then every entry down to the nearest repeat: it leaves the
    longest part of the ancestors, from the root, that ends with a repeat, and
    nothing when no ancestor is a repeat. It does not throw on a stack without
    null fields. *)
Theorem parentContext_is_cut_at_the_nearest_repeat (ancestors : list (field * iteration))
    (cur : field * iteration) :
  ∃ parent rest,
    ancestors = parent ++ rest
    ∧ parentContext (lift (ancestors ++ [cur])) = Some (lift parent)
    ∧ Forall (λ p, type p.1 ≠ Repeat) rest
    ∧ match last parent with Some r => type r.1 = Repeat | None => True end.
Proof.
  destruct (cutAtRepeat_split ancestors) as (parent & rest & Hsplit & Hcut & Hrest & Hlast).
  exists parent, rest. rewrite parentContext_lift, Hcut. done.
Qed.

(** ** Paths of the schema *)



Section Schema.

Variable shasum stripNamespacesFromPath : string → string.
Variable table : string.
Variable sub : submission.
Variable opts : options.
Variable fields : gmap string field.




End Schema.

(** ** What the callbacks do not read *)

Section Unread.

Variable shasum stripNamespacesFromPath : string → string.
Variable table : string.
Variable opts : options.
Variable fields : gmap string field.

Lemma write_eraseCloseName (sub : submission) (st : status) (events : list event) :
  write shasum stripNamespacesFromPath table sub opts st (eraseCloseName <$> events)
  = write shasum stripNamespacesFromPath table sub opts st events.
Proof.
  revert st. induction events as [|e events IH]; intros st; [done|].
  rewrite fmap_cons, !write_cons, IH. by destruct e, st.
Qed.

(** X16. The close callback does not read the name it is given, and the first
    open callback, the one of the envelope, does not either: two documents of
    one instance id whose callbacks differ only in these names are converted
    alike. *)
Theorem envelope_and_close_names_are_not_read (id wrapper wrapper' : string)
    (rest : list event) :
  submissionToOData shasum stripNamespacesFromPath fields table
    (Submission id (OpenTag wrapper :: rest)) opts
  = submissionToOData shasum stripNamespacesFromPath fields table
      (Submission id (OpenTag wrapper' :: (eraseCloseName <$> rest))) opts.
Proof.
  unfold submissionToOData. cbn [xml]. rewrite !write_cons.
  rewrite write_eraseCloseName. reflexivity.
Qed.

(** X17. A text event changes nothing unless the walker is inside the table:
    at the element of a row of the table itself, outside the table and under
    an element that is skipped, the text is dropped, and the callback does not
    throw. *)
Theorem text_elsewhere_is_ignored (sub : submission) (events : list event) (s : state)
    (text : string) :
  reached shasum stripNamespacesFromPath table sub opts fields events s →
  getBranchState (fieldStack s) table ≠ Some Inside →
  ontext table opts s text = Some s.
Proof.
  intros Hreached Hstate. apply reached_consistent in Hreached as Hs. unfold ontext.
  destruct (mjoin (ptr (fieldStack s))) as [fieldPtr|] eqn:Htop; [|done].
  destruct (consistent_top fields s fieldPtr Hs Htop) as (fs & ds & a & Hf & _).
  rewrite Hf, getBranchState_Some in *. cbn [mbind option_bind].
  set (branchState := if decide _ then At else _) in *.
  destruct (decide (branchState = 1)) as [Hinside|]; [|done].
  destruct Hstate. by rewrite Hinside.
Qed.

End Unread.

(** ** The text that is digested *)

(** X18. The text that [hashId] digests does not set its entries apart from
    the separators: an instance id that ends like an entry gives the text of
    the longer stack, hence the same id, whatever the digest. *)
Theorem hashId_text_does_not_delimit_entries (shasum : string → string) (f g : field)
    (id : string) (n : nat) (rest : list (field * iteration)) :
  hashId shasum (lift ((f, IStr (id +:+ "%%" +:+ name g +:+ "#" +:+ pretty n)) :: rest))
  = hashId shasum (lift ((f, IStr id) :: (g, INum n) :: rest)).
Proof.
  rewrite !hashId_lift. f_equal. unfold digestInput. rewrite !fmap_cons, !join_cons.
  cbn [fst snd iterationToString joinTail]. rewrite join_cons.
  by rewrite !string_app_assoc.
Qed.

(** ** Groups and the row of their fields *)

Lemma dataAlong_length (fieldStack : list (option field)) (dataStack : list (option addr)) :
  dataAlong fieldStack dataStack → length dataStack = length fieldStack.
Proof.
  induction 1; [done|done|..]; rewrite ?length_pushPtr, !length_app; cbn; lia.
Qed.

Lemma dataAlong_pop (fieldStack : list (option field)) (dataStack : list (option addr)) :
  dataAlong fieldStack dataStack → dataAlong (pop fieldStack) (pop dataStack).
Proof.
  destruct 1; [constructor|constructor|..]; unfold pushPtr; by rewrite !pop_snoc.
Qed.

(** The frames above an entry, up to the next repeat, carry the entry that
    is next to it. *)
Lemma dataAlong_run (below : list (option field)) (x : option field) (post : list field)
    (dataStack : list (option addr)) :
  dataAlong (below ++ x :: (Some <$> post)) dataStack →
  Forall (λ f, type f ≠ Repeat) post →
  ∃ ds d, length ds = length below ∧ dataStack = ds ++ replicate (S (length post)) d.
Proof.
  revert dataStack. induction post as [|p post IH] using rev_ind; intros dataStack Hrel Hpost.
  - pose proof (dataAlong_length _ _ Hrel) as Hlen. rewrite length_app in Hlen. cbn in Hlen.
    destruct dataStack as [|d ds _] using rev_ind; [cbn in Hlen; lia|].
    exists ds, d. rewrite length_app in Hlen. cbn in Hlen. split; [lia|done].
  - apply Forall_app in Hpost as [Hpost Hp]. apply Forall_inv in Hp.
    rewrite fmap_app in Hrel. cbn [fmap list_fmap] in Hrel.
    rewrite app_comm_cons, app_assoc in Hrel.
    inversion Hrel as [Hf|f d Hf|fieldStack dataStack' f Hrel' Hf' Hf|fieldStack dataStack' f d Hrel' Hf' Hf].
    + by destruct (below ++ x :: (Some <$> post)).
    + destruct below; [by destruct post|].
      injection Hf as _ Hf. by destruct (below ++ x :: (Some <$> post)).
    + apply app_inj_tail in Hf as [-> _].
      destruct (IH _ Hrel' Hpost) as (ds & d & Hlen & ->).
      exists ds, d. split; [done|].
      assert (ptr (ds ++ replicate (S (length post)) d) = Some d) as Hptr.
      { unfold ptr. by rewrite replicate_S_end, app_assoc, last_snoc. }
      unfold pushPtr. rewrite Hptr. cbn [default]. rewrite length_app. cbn [length].
      by rewrite Nat.add_1_r, (replicate_S_end (S (length post))), app_assoc.
    + apply app_inj_tail in Hf as [_ Heq]. destruct Hp. by apply Hf'.
Qed.

Section Rows.

Variable shasum stripNamespacesFromPath : string → string.
Variable table : string.
Variable sub : submission.
Variable opts : options.
Variable fields : gmap string field.

Lemma onopentag_data (s s' : state) (fullname : string) :
  droppedWrapper s = true →
  dataAlong (fieldStack s) (dataStack s) →
  onopentag shasum stripNamespacesFromPath table sub s fullname = Some s' →
  dataAlong (fieldStack s') (dataStack s').
Proof.
  unfold onopentag. intros -> Hrel Hopen. cbn [negb] in Hopen.
  destruct (mjoin (ptr (fieldStack s)) ≫= _) as [f|].
  2:{ injection Hopen as <-. by apply dataAlong_other. }
  destruct (type f) eqn:Htype.
  2:{ unfold openRepeat in Hopen.
      repeat (case_match || simplify_option_eq); cbn; rewrite ?pop_snoc;
        apply dataAlong_other; try done; by intros g [= <-]. }
  all: injection Hopen as <-; apply dataAlong_same; [done|by rewrite Htype].
Qed.

Lemma reached_data (events : list event) (s : state) :
  reached shasum stripNamespacesFromPath table sub opts fields events s →
  dataAlong (fieldStack s) (dataStack s).
Proof.
  intros Hreached.
  assert (dataAlong (fieldStack (initial fields table sub)) (dataStack (initial fields table sub)))
    as Hinitial by constructor.
  revert Hinitial. unfold reached in Hreached.
  apply (write_related shasum stripNamespacesFromPath table sub opts
    (λ s s', dataAlong (fieldStack s) (dataStack s) → dataAlong (fieldStack s') (dataStack s')))
    with (events := events); [| | | | |by left].
  - done.
  - intros t u v Htu Huv Ht. by apply Huv, Htu.
  - intros t t' fullname Hopen Ht. destruct (droppedWrapper t) eqn:Hdropped.
    + by eapply onopentag_data.
    + unfold onopentag in Hopen. rewrite Hdropped in Hopen. by injection Hopen as <-.
  - intros t t' text Htext Ht. unfold ontext in Htext.
    repeat (case_match || simplify_option_eq); done.
  - intros t name' Ht. by apply dataAlong_pop.
Qed.

(** X19. A field that is no repeat has no row of its own: from any entry of
    the field stack up, as far as no repeat comes, all the entries of the data
    stack are one row of the store. The fields of a group, and of the groups
    in it, are written on the row of the repeat instance around them, or on
    the root row. *)
Theorem groups_share_the_row_of_their_repeat (events : list event) (s : state) (pre post : list field) (r : field) :
  reached shasum stripNamespacesFromPath table sub opts fields events s →
  fieldStack s = Some <$> pre ++ r :: post →
  Forall (λ f, type f ≠ Repeat) post →
  ∃ (below : list addr) (a : addr),
    length below = length pre
    ∧ (a < length (heap s))%nat
    ∧ dataStack s = Some <$> below ++ replicate (S (length post)) a.
Proof.
  intros Hreached Hf Hpost.
  pose proof (reached_data _ _ Hreached) as Hrel.
  pose proof (reached_consistent _ _ _ _ _ _ _ _ Hreached) as (fs & ds & k & Hf' & Hd & _ & Hvalid & _).
  rewrite Hf, fmap_app, fmap_cons in Hrel.
  destruct (dataAlong_run _ _ _ _ Hrel Hpost) as (below & d & Hlen & Hrun).
  rewrite length_fmap in Hlen.
  destruct k as [|k].
  2:{ assert (None ∈ fieldStack s) as Hnull.
      { rewrite Hf'. apply elem_of_app. right. left. }
      rewrite Hf in Hnull. by apply list_elem_of_fmap in Hnull as (f & ? & _). }
  cbn [replicate] in Hd. rewrite app_nil_r in Hd. rewrite Hd in Hrun.
  assert (∃ a, d = Some a ∧ (a < length (heap s))%nat) as (a & -> & Ha).
  { rewrite replicate_S_end, app_assoc in Hrun.
    destruct ds as [|a ds _] using rev_ind; [by destruct (below ++ _)|].
    rewrite fmap_app in Hrun. cbn in Hrun. apply app_inj_tail in Hrun as [_ <-].
    apply Forall_app in Hvalid as [_ Hvalid]. apply Forall_inv in Hvalid. by exists a. }
  exists (omap id below), a.
  assert (below = Some <$> omap id below) as Hbelow.
  { apply (f_equal (take (length below))) in Hrun.
    rewrite take_app_length in Hrun. rewrite <- Hrun.
    rewrite <- fmap_take, omap_id_Some. done. }
  split; [|split; [done|]].
  - rewrite <- Hlen. rewrite Hbelow at 2. by rewrite length_fmap.
  - rewrite Hd, Hrun, fmap_app, fmap_replicate. by rewrite <- Hbelow.
Qed.

End Rows.

(** ** Rows whose element is closed *)

Lemma ptr_elem_of {A} (stack : list A) (x : A) : ptr stack = Some x → x ∈ stack.
Proof.
  unfold ptr. intros Hlast. apply last_Some in Hlast as [below ->].
  apply elem_of_app. right. left.
Qed.

Lemma lookup_setProp_ne (h : list row) (a b : addr) (key : string) (v : value) :
  a ≠ b → setProp h a key v !! b = h !! b.
Proof. intros Hne. unfold setProp. by rewrite list_lookup_alter_ne. Qed.

Section Final.

Variable shasum stripNamespacesFromPath : string → string.
Variable table : string.
Variable sub : submission.
Variable opts : options.

(** A row that is not on the data stack is out of reach of the callbacks. *)
Lemma openRepeat_off_stack (s s' : state) (name' : string) (f : field) (a : addr) :
  openRepeat shasum table sub s name' f = Some s' →
  (a < length (heap s))%nat → Some a ∉ dataStack s →
  (Some a ∉ dataStack s') ∧ heap s' !! a = heap s !! a
  ∧ (length (heap s) ≤ length (heap s'))%nat.
Proof.
  unfold openRepeat. intros Hopen Ha Hoff.
  destruct (mjoin (ptr (dataStack s))) as [dataPtr|] eqn:Hdata; [|done].
  assert (dataPtr ≠ a) as Hne.
  { intros ->. apply Hoff, ptr_elem_of. destruct (ptr (dataStack s)) as [[?|]|]; cbn in Hdata; by simplify_eq. }
  cbn [mbind option_bind] in Hopen.
  destruct (navigationLink _ _ _) as [link|]; [|done]. cbn [mbind option_bind] in Hopen.
  destruct (getBranchState _ _) as [branchState|]; [|done]. cbn [mbind option_bind] in Hopen.
  set (h1 := setProp (heap s) dataPtr _ _) in *.
  assert (length h1 = length (heap s)) as Hh1 by apply length_setProp.
  assert (h1 !! a = heap s !! a) as Hh1a by (by apply lookup_setProp_ne).
  case_decide.
  2:{ injection Hopen as <-. cbn. rewrite Hh1. split; [|done].
      rewrite not_elem_of_app. split; [done|]. by intros ?%list_elem_of_singleton. }
  destruct (match getProp h1 dataPtr name' with
            | Some (VRows bags) => Some bags | None => Some [] | _ => None end)
    as [bags|]; [|done].
  cbn [mbind option_bind] in Hopen.
  destruct (hashId _ _) as [id|]; [|done]. cbn [mbind option_bind] in Hopen.
  set (h2 := setProp h1 dataPtr name' _ ++ _) in *.
  assert (h2 !! a = heap s !! a) as Hh2a.
  { unfold h2. rewrite lookup_app_l by (rewrite length_setProp; lia).
    by rewrite lookup_setProp_ne. }
  assert (length h2 = S (length (heap s))) as Hh2.
  { unfold h2. rewrite length_app, length_setProp. cbn. lia. }
  assert (Some a ∉ dataStack s ++ [Some (length h1)]) as Hoff'.
  { rewrite not_elem_of_app. split; [done|]. intros Hin%list_elem_of_singleton.
    injection Hin as ->. lia. }
  case_decide.
  - destruct (parentReference _ _ _) as [ref|]; [|done]. injection Hopen as <-. cbn.
    rewrite length_setProp, lookup_setProp_ne by lia. split; [done|]. split; [done|lia].
  - injection Hopen as <-. cbn. split; [done|]. split; [done|lia].
Qed.

Lemma onopentag_off_stack (s s' : state) (fullname : string) (a : addr) :
  onopentag shasum stripNamespacesFromPath table sub s fullname = Some s' →
  (a < length (heap s))%nat → Some a ∉ dataStack s →
  (Some a ∉ dataStack s') ∧ heap s' !! a = heap s !! a
  ∧ (length (heap s) ≤ length (heap s'))%nat.
Proof.
  unfold onopentag. intros Hopen Ha Hoff.
  destruct (droppedWrapper s); cbn [negb] in Hopen; [|by injection Hopen as <-].
  assert (Some a ∉ dataStack s ++ [None]) as Hnull.
  { rewrite not_elem_of_app. split; [done|]. by intros ?%list_elem_of_singleton. }
  assert (Some a ∉ pushPtr None (dataStack s)) as Hsame.
  { unfold pushPtr. rewrite not_elem_of_app. split; [done|].
    intros Hin%list_elem_of_singleton. destruct (ptr (dataStack s)) as [top|] eqn:Htop; [|done].
    apply ptr_elem_of in Htop. cbn in Hin. by subst top. }
  destruct (mjoin (ptr (fieldStack s)) ≫= _) as [f|]; [|by injection Hopen as <-].
  destruct (type f); try by injection Hopen as <-.
  by eapply openRepeat_off_stack.
Qed.

Lemma ontext_off_stack (s s' : state) (text : string) (a : addr) :
  ontext table opts s text = Some s' →
  (a < length (heap s))%nat → Some a ∉ dataStack s →
  (Some a ∉ dataStack s') ∧ heap s' !! a = heap s !! a
  ∧ (length (heap s) ≤ length (heap s'))%nat.
Proof.
  unfold ontext. intros Htext Ha Hoff.
  destruct (mjoin (ptr (fieldStack s))) as [fieldPtr|]; [|by injection Htext as <-].
  destruct (getBranchState _ _) as [branchState|]; [|done]. cbn [mbind option_bind] in Htext.
  case_decide; [|by injection Htext as <-].
  destruct (coerce _ _ _) as [v|]; [|by injection Htext as <-].
  destruct (mjoin (ptr (dataStack s))) as [dataPtr|] eqn:Hdata; [|done].
  injection Htext as <-. cbn. rewrite length_setProp. split; [done|]. split; [|done].
  apply lookup_setProp_ne. intros ->. apply Hoff, ptr_elem_of.
  destruct (ptr (dataStack s)) as [[?|]|]; cbn in Hdata; by simplify_eq.
Qed.

Lemma pop_subseteq {A} (stack : list A) (x : A) : x ∈ pop stack → x ∈ stack.
Proof.
  destruct stack as [|y stack _] using rev_ind; [done|].
  rewrite pop_snoc. intros Hin. apply elem_of_app. by left.
Qed.

(** X20. A row whose element is closed is final. The callbacks write to the
    row on top of the data stack and to rows that they make; a row of the
    store that is not on the data stack is not put back on it and is not
    changed by any event that follows, up to the resolved state. *)
Theorem rows_off_the_data_stack_are_final (s s' : state) (events : list event) (a : addr) :
  write shasum stripNamespacesFromPath table sub opts (Pending s) events = Pending s'
  ∨ write shasum stripNamespacesFromPath table sub opts (Pending s) events = Resolved s' →
  (a < length (heap s))%nat → Some a ∉ dataStack s →
  (Some a ∉ dataStack s') ∧ heap s' !! a = heap s !! a.
Proof.
  intros Hrun Ha Hoff.
  assert ((Some a ∉ dataStack s') ∧ heap s' !! a = heap s !! a
          ∧ (length (heap s) ≤ length (heap s'))%nat) as (? & ? & _); [|done].
  revert Ha Hoff. revert Hrun.
  apply (write_related shasum stripNamespacesFromPath table sub opts (λ s s',
    (a < length (heap s))%nat → Some a ∉ dataStack s →
    (Some a ∉ dataStack s') ∧ heap s' !! a = heap s !! a
    ∧ (length (heap s) ≤ length (heap s'))%nat)).
  - done.
  - intros t u v Htu Huv Ha Hoff. destruct (Htu Ha Hoff) as (Hoff' & Hrow & Hlen).
    destruct (Huv ltac:(lia) Hoff') as (Hoff'' & Hrow' & Hlen').
    split; [done|]. split; [congruence|lia].
  - intros t t' fullname Hopen. by eapply onopentag_off_stack.
  - intros t t' text Htext. by eapply ontext_off_stack.
  - intros t name' Ha Hoff. cbn. split; [|done]. intros Hin. by apply Hoff, pop_subseteq.
Qed.

End Final.

(** * The documents converted *)

(** C2. The claim wants the key of an Int or Decimal field left out of the
    row when its text does not parse. For [<x>abc</x>] and [<d>n/a</d>] in a
    row of [Submissions.a.b], the row that is emitted holds both keys, with
    NaN as their value, next to the text field [t] of the same row. *)
Theorem unparsable_number_is_written_as_NaN (shasum : string → string) :
  resolvedWith ["x"; "d"; "t"]
    (submissionToOData shasum unprefixed exampleFields "Submissions.a.b"
       unparsableDocument (Options None))
  = Some [[Some (VNum Js.NaN); Some (VNum Js.NaN); Some (VStr "hi")]].
Proof. vm_compute. reflexivity. Qed.

(** The nested repeats of section 8: the two rows of [Submissions.a.b] refer
    to the two instances of [a], each to its own. *)
Example nested_repeat_rows (shasum : string → string) :
  resolvedWith ["__id"; "__Submissions-a-id"]
    (submissionToOData shasum unprefixed exampleFields "Submissions.a.b"
       nestedDocument (Options None))
  = Some [[Some (VStr (shasum "Submissions#uuid:1%%a#0%%b#0"));
           Some (VStr (shasum "Submissions#uuid:1%%a#0"))];
          [Some (VStr (shasum "Submissions#uuid:1%%a#1%%b#0"));
           Some (VStr (shasum "Submissions#uuid:1%%a#1"))]]
  ∧ resolvedWith ["__id"; "__Submissions-id"]
      (submissionToOData shasum unprefixed exampleFields "Submissions.a"
         nestedDocument (Options None))
    = Some [[Some (VStr (shasum "Submissions#uuid:1%%a#0")); Some (VStr "uuid:1")];
            [Some (VStr (shasum "Submissions#uuid:1%%a#1")); Some (VStr "uuid:1")]].
Proof. split; vm_compute; reflexivity. Qed.

(** The points of section 8, and some more: latitude and longitude swap
    places, a text with one number or with white space in front gives no
    value, an altitude is kept when it is a number. *)
Example geopoint_values :
  geopoint (Options (Some false)) "1.0 2.0" = Some (VPoint [Js.Num 2 0; Js.Num 1 0])
  ∧ geopoint (Options None) "1.0 2.0" = Some (VPoint [Js.Num 2 0; Js.Num 1 0])
  ∧ geopoint (Options (Some true)) "1.0 2.0" = Some (VStr "POINT (2 1)")
  ∧ geopoint (Options None) "1.0" = None
  ∧ geopoint (Options None) " 1.0 2.0" = None
  ∧ geopoint (Options (Some true)) "1.5 -2.25 30 4" = Some (VStr "POINT (-2.25 1.5 30)")
  ∧ geopoint (Options None) "1 2 up" = Some (VPoint [Js.Num 2 0; Js.Num 1 0]).
Proof. repeat split; vm_compute; reflexivity. Qed.

(** The one way to a rejected promise: the repeat [__id] finds the instance
    id of the root row where its array would be, and pushing to it throws. *)
Example repeat_named_like_a_key_is_rejected :
  submissionToOData exampleDigest unprefixed clashFields "Submissions.__id"
    clashDocument (Options None) = Rejected.
Proof. vm_compute. reflexivity. Qed.



(** ** The theorems at work on these documents *)

(** At the second [<b>] of the nested document: the row is the fifth object,
    it is appended to the result, and it refers to the second [a]. *)
Lemma repeat_at_table_parent_reference_nested :
  let s := stateOf (exampleAfter exampleFields "Submissions.a.b" nestedDocument 6) in
  ∃ s' position,
    onopentag exampleDigest unprefixed "Submissions.a.b" nestedDocument s "b" = Some s'
    ∧ result s' = result s ++ [4%nat]
    ∧ heap s' !! 4%nat
      = Some (<[ "__Submissions-a-id" := VStr (exampleDigest "Submissions#uuid:1%%a#1") ]>
               {[ "__id" := VStr (exampleDigest
                                    (digestInput (ancestry s ++ [(fieldB, INum position)]))) ]}).
Proof.
  intros s.
  destruct (repeat_at_table_parent_reference exampleDigest unprefixed "Submissions.a.b"
              nestedDocument (Options None) exampleFields
              (take 6 (xml nestedDocument)) s "b" fieldA fieldB 3%nat)
    as (s' & position & key & ref & Hopen & Hresult & Hrow & _ & Hnearest & _).
  - vm_compute. reflexivity.
  - vm_compute. reflexivity.
  - vm_compute. reflexivity.
  - vm_compute. reflexivity.
  - reflexivity.
  - vm_compute. reflexivity.
  - vm_compute. reflexivity.
  - intros v Hv. vm_compute in Hv. discriminate Hv.
  - exists s', position. split; [exact Hopen|]. split; [exact Hresult|].
    destruct (Hnearest [(rootField exampleFields, IStr "uuid:1")] (fieldA, INum 1) [])
      as [Hkey Href].
    + vm_compute. reflexivity.
    + reflexivity.
    + constructor.
    + rewrite Hkey, Href in Hrow. exact Hrow.
Defined.






(** ** More of the theorems at work on these documents *)

(** Under the [a] of the table [Submissions.a], the path of [b] is inside. *)
Lemma getBranchState_below_table_nested :
  getBranchState (Some <$> [rootField exampleFields; fieldA] ++ [fieldB]) "Submissions.a"
  = Some Inside.
Proof.
  apply (getBranchState_below_table [rootField exampleFields; fieldA] [fieldB] "Submissions.a").
  - discriminate.
  - discriminate.
  - left. vm_compute. reflexivity.
Defined.


(** The [b] under the first [a] of the table [Submissions.a], with an [x]
    in it. *)
Lemma repeat_inside_table_is_skipped_nested :
  let s := stateOf (exampleAfter exampleFields "Submissions.a" nestedDocument 2) in
  ∃ link,
    navigationLink exampleDigest (fieldStack s ++ [Some fieldB]) (iterationStack s) = Some link
    ∧ write exampleDigest unprefixed "Submissions.a" nestedDocument (Options None) (Pending s)
        (OpenTag "b" :: [OpenTag "x"; TextNode "1"; CloseTag "x"] ++ [CloseTag "b"])
      = Pending (withHeap s
          (setProp (heap s) 1
             (nsTarget (mjoin (ptr (nsStack s))) (unprefixed "b") +:+ "@odata.navigationLink")
             (VStr link))).
Proof.
  intros s.
  apply (repeat_inside_table_is_skipped exampleDigest unprefixed "Submissions.a" nestedDocument
           (Options None) s "b" "b" [OpenTag "x"; TextNode "1"; CloseTag "x"] fieldA fieldB 1%nat).
  - vm_compute. reflexivity.
  - vm_compute. reflexivity.
  - vm_compute. reflexivity.
  - reflexivity.
  - vm_compute. reflexivity.
  - vm_compute. reflexivity.
  - reflexivity.
Defined.

(** The first [a] of the nested document, with its [b]. *)
Lemma balanced_content_restores_stacks_nested :
  let s := stateOf (exampleAfter exampleFields "Submissions.a.b" nestedDocument 1) in
  match write exampleDigest unprefixed "Submissions.a.b" nestedDocument (Options None)
          (Pending s) (element "a" (element "b" [])) with
  | Pending s' =>
      fieldStack s' = fieldStack s ∧ dataStack s' = dataStack s
      ∧ iterationStack s' = iterationStack s ∧ nsStack s' = nsStack s
  | Resolved _ => False
  | Rejected => True
  end.
Proof.
  intros s.
  apply (balanced_content_restores_stacks exampleDigest unprefixed "Submissions.a.b"
           nestedDocument (Options None) s (element "a" (element "b" []))).
  - vm_compute. reflexivity.
  - vm_compute. discriminate.
  - reflexivity.
Defined.



(** The root row keeps its [__id] while the nested document is read. *)
Lemma properties_are_never_removed_nested :
  is_Some (getProp (heap (stateOf (submissionToOData exampleDigest unprefixed exampleFields
                                     "Submissions.a.b" nestedDocument (Options None))))
             0 "__id").
Proof.
  apply (properties_are_never_removed exampleDigest unprefixed "Submissions.a.b" nestedDocument
           (Options None) (initial exampleFields "Submissions.a.b" nestedDocument)
           _ (xml nestedDocument) 0%nat "__id").
  - right. vm_compute. reflexivity.
  - vm_compute. eexists. reflexivity.
Defined.

(** The rows that the nested document gives for [Submissions.a.b]. *)
Lemma emitted_rows_are_distinct_and_have_ids_nested :
  let s := stateOf (submissionToOData exampleDigest unprefixed exampleFields "Submissions.a.b"
                      nestedDocument (Options None)) in
  NoDup (result s)
  ∧ length (rowsOf s) = length (result s)
  ∧ Forall (λ r : row, is_Some (r !! "__id")) (rowsOf s).
Proof.
  intros s.
  apply (emitted_rows_are_distinct_and_have_ids exampleDigest unprefixed "Submissions.a.b"
           nestedDocument (Options None) exampleFields (xml nestedDocument) s).
  right. vm_compute. reflexivity.
Defined.

(** The first [b] of the nested document, opened at the table
    [Submissions.a.b]. *)
Lemma repeat_open_writes_navigation_link_nested :
  let s := stateOf (exampleAfter exampleFields "Submissions.a.b" nestedDocument 2) in
  let s' := stateOf (exampleAfter exampleFields "Submissions.a.b" nestedDocument 3) in
  ∃ a, mjoin (ptr (dataStack s)) = Some a
       ∧ getProp (heap s') a
           (nsTarget (mjoin (ptr (nsStack s))) (unprefixed "b") +:+ "@odata.navigationLink")
         = Some (VStr (linkPath exampleDigest (ancestry s) +:+ "/" +:+ name fieldB)).
Proof.
  intros s s'.
  apply (repeat_open_writes_navigation_link exampleDigest unprefixed "Submissions.a.b"
           nestedDocument (Options None) exampleFields (take 2 (xml nestedDocument))
           s s' "b" fieldA fieldB).
  - vm_compute. reflexivity.
  - vm_compute. reflexivity.
  - vm_compute. reflexivity.
  - vm_compute. reflexivity.
  - reflexivity.
  - vm_compute. reflexivity.
Defined.

(** The second [a] of the nested document, for the table [Submissions.a.b]:
    it is outside the table, and the second of its array. *)
Lemma repeat_instance_is_appended_to_its_array_nested :
  let s := stateOf (exampleAfter exampleFields "Submissions.a.b" nestedDocument 5) in
  let s' := stateOf (exampleAfter exampleFields "Submissions.a.b" nestedDocument 6) in
  ∃ a bags,
    mjoin (ptr (dataStack s)) = Some a
    ∧ (getProp (heap s) a (unprefixed "a") = Some (VRows bags)
       ∨ getProp (heap s) a (unprefixed "a") = None ∧ bags = [])
    ∧ getProp (heap s') a (unprefixed "a") = Some (VRows (bags ++ [length (heap s)]))
    ∧ length (heap s') = S (length (heap s))
    ∧ fieldStack s' = fieldStack s ++ [Some fieldA]
    ∧ dataStack s' = dataStack s ++ [Some (length (heap s))]
    ∧ iterationStack s' = iterationStack s ++ [INum (length bags)]
    ∧ nsStack s' = nsStack s ++ [None].
Proof.
  intros s s'.
  apply (repeat_instance_is_appended_to_its_array exampleDigest unprefixed "Submissions.a.b"
           nestedDocument (Options None) exampleFields (take 5 (xml nestedDocument))
           s s' "a" (rootField exampleFields) fieldA).
  - vm_compute. reflexivity.
  - vm_compute. reflexivity.
  - vm_compute. reflexivity.
  - vm_compute. reflexivity.
  - reflexivity.
  - vm_compute. discriminate.
  - vm_compute. reflexivity.
Defined.

(** The decimal [y] of the group [g], for the table [Submissions]. *)
Lemma text_is_written_under_the_group_path_example :
  let s := stateOf (exampleAfter exampleFields "Submissions" groupDocument 3) in
  ∃ (fs : list field) (a : addr),
    fieldStack s = Some <$> fs ++ [leaf "y" Decimal]
    ∧ mjoin (ptr (dataStack s)) = Some a
    ∧ ontext "Submissions" (Options None) s "1.5"
      = Some (match coerce (Options None) (type (leaf "y" Decimal)) "1.5" with
              | Some v =>
                  withHeap s
                    (setProp (heap s) a
                       (Js.join "__" (groups fs ++ [name (leaf "y" Decimal)])) v)
              | None => s
              end).
Proof.
  intros s.
  apply (text_is_written_under_the_group_path exampleDigest unprefixed "Submissions"
           groupDocument (Options None) exampleFields (take 3 (xml groupDocument))
           s "1.5" (leaf "y" Decimal)).
  - vm_compute. reflexivity.
  - vm_compute. reflexivity.
  - vm_compute. reflexivity.
Defined.

(** The rows of [Submissions.a] in the nested document: each [a] has a [b]
    under it. *)
Lemma emitted_rows_hold_no_subtables_nested :
  Forall (λ r : row, ∀ key bags, r !! key ≠ Some (VRows bags))
    (rowsOf (stateOf (submissionToOData exampleDigest unprefixed exampleFields "Submissions.a"
                        nestedDocument (Options None)))).
Proof.
  apply (emitted_rows_hold_no_subtables exampleDigest unprefixed "Submissions.a" nestedDocument
           (Options None) exampleFields (xml nestedDocument)).
  right. vm_compute. reflexivity.
Defined.


(** A text right under an [a] of the table [Submissions.a]. *)
Lemma text_elsewhere_is_ignored_nested :
  let s := stateOf (exampleAfter exampleFields "Submissions.a" nestedDocument 2) in
  ontext "Submissions.a" (Options None) s "hi" = Some s.
Proof.
  intros s.
  apply (text_elsewhere_is_ignored exampleDigest unprefixed "Submissions.a" (Options None)
           exampleFields nestedDocument (take 2 (xml nestedDocument)) s "hi").
  - vm_compute. reflexivity.
  - vm_compute. discriminate.
Defined.

(** The group [g] and its [y] stand next to the root row. *)
Lemma groups_share_the_row_of_their_repeat_example :
  let s := stateOf (exampleAfter exampleFields "Submissions" groupDocument 3) in
  ∃ (below : list addr) (a : addr),
    length below = 0%nat
    ∧ (a < length (heap s))%nat
    ∧ dataStack s = Some <$> below ++ replicate 3 a.
Proof.
  intros s.
  apply (groups_share_the_row_of_their_repeat exampleDigest unprefixed "Submissions"
           groupDocument (Options None) exampleFields (take 3 (xml groupDocument)) s
           [] [Field "g" Structure {[ "y" := leaf "y" Decimal ]}; leaf "y" Decimal]
           (rootField exampleFields)).
  - vm_compute. reflexivity.
  - vm_compute. reflexivity.
  - repeat constructor; discriminate.
Defined.

(** The row of the first [b] of the nested document, once that [b] is
    closed. *)
Lemma rows_off_the_data_stack_are_final_nested :
  let s := stateOf (exampleAfter exampleFields "Submissions.a.b" nestedDocument 4) in
  let s' := stateOf (submissionToOData exampleDigest unprefixed exampleFields "Submissions.a.b"
                       nestedDocument (Options None)) in
  (Some 2%nat ∉ dataStack s') ∧ heap s' !! 2%nat = heap s !! 2%nat.
Proof.
  intros s s'.
  apply (rows_off_the_data_stack_are_final exampleDigest unprefixed "Submissions.a.b"
           nestedDocument (Options None) s s' (drop 4 (xml nestedDocument)) 2%nat).
  - right. vm_compute. reflexivity.
  - vm_compute. lia.
  - vm_compute. intros Hin. repeat (apply elem_of_cons in Hin as [Hin|Hin]; [discriminate Hin|]).
    by apply elem_of_nil in Hin.
Defined.
